(** * snakefood: the dependency generator [gendeps]

    A shallow embedding of [lib/python/snakefood/gendeps.py]: the
    package-collapse normalisation of file names, the worklist loop that
    accumulates the edge mapping [allfiles], the end-of-run error report and
    the command-line guards that precede the loop.

    The functions imported from sibling modules ([find_dependencies],
    [relfile], [find_roots], [iter_pyfiles]) and from the file system
    ([realpath], [exists]) are not part of this file; they are variables of
    the sections below. *)

From Stdlib Require Import Ascii.
From stdpp Require Import gmap strings list fin_maps sorting.

(** ** [os.path] on POSIX path names *)

Module Path.

Definition is_sep (c : ascii) : bool := bool_decide (c = "/"%char).

(** [rfind_split p] cuts [p] after its last separator: with
    [i = p.rfind('/') + 1] it is [Some (p[:i], p[i:])], and [None] when [p]
    holds no separator (then [i = 0]). *)
Fixpoint rfind_split (p : string) : option (string * string) :=
  match p with
  | EmptyString => None
  | String c r =>
      match rfind_split r with
      | Some (h, t) => Some (String c h, t)
      | None => if is_sep c then Some (String c EmptyString, r) else None
      end
  end.

(** [s.rstrip('/')] *)
Fixpoint rstrip_sep (s : string) : string :=
  match s with
  | EmptyString => EmptyString
  | String c r =>
      match rstrip_sep r with
      | EmptyString => if is_sep c then EmptyString else String c EmptyString
      | r' => String c r'
      end
  end.

(** [s == '/' * len(s)] *)
Fixpoint all_sep (s : string) : bool :=
  match s with
  | EmptyString => true
  | String c r => is_sep c && all_sep r
  end.

Definition is_empty (s : string) : bool :=
  match s with EmptyString => true | _ => false end.

(** [posixpath.basename] *)
Definition basename (p : string) : string :=
  match rfind_split p with
  | Some (_, t) => t
  | None => p
  end.

(** [posixpath.dirname] *)
Definition dirname (p : string) : string :=
  let head := match rfind_split p with Some (h, _) => h | None => "" end in
  if negb (is_empty head) && negb (all_sep head) then rstrip_sep head else head.

(** The name of a package initializer. *)
Definition init_py : string := "__init__.py".

(** Lines 122-123 and 136-138 of [gendeps]: a package initializer is replaced
    by the directory that holds it. *)
Definition collapse (fn : string) : string :=
  if bool_decide (basename fn = init_py) then dirname fn else fn.

(** [p] ends with a separator. *)
Fixpoint ends_with_sep (p : string) : bool :=
  match p with
  | EmptyString => false
  | String c EmptyString => is_sep c
  | String _ r => ends_with_sep r
  end.

(** [s] holds no separator. *)
Fixpoint no_sep (s : string) : bool :=
  match s with
  | EmptyString => true
  | String c r => negb (is_sep c) && no_sep r
  end.

(** [os.path.join(dn, name)] for a directory name without a trailing
    separator. *)
Definition join (dn name : string) : string := dn +:+ "/" +:+ name.

End Path.

(** ** Data *)

(** The error tags of module [find]. *)
Inductive error_kind : Type :=
  | ERROR_IMPORT
  | ERROR_SYMBOL
  | ERROR_OTHER (tag : string).

#[global] Instance error_kind_eq_dec : EqDecision error_kind.
Proof. solve_decision. Defined.

(** What [relfile] returns when it finds a root: [(root, relative name)]. *)
Definition ident : Type := string * string.

(** An element of an edge set, as a Python value: [None] (the value
    [relfile] returns when no root is found), or a pair whose components may
    each be [None]. *)
Definition target : Type := option (option string * option string).

(** The pair [(None, None)]. *)
Definition sentinel : target := Some (None, None).

(** The pair [(root, rel)] as an element of an edge set. *)
Definition pair_target (i : ident) : target := Some (Some i.1, Some i.2).

(** The value of [to_], the result of [relfile], as an element of an edge
    set. *)
Definition to_target (r : option ident) : target :=
  match r with
  | Some i => pair_target i
  | None => None
  end.

Record options : Type := Options {
  internal : bool;
  ignores : list string;
  verbose : nat;
  follow : bool;
  print_roots : bool;
  do_pragmas : bool
}.

(** The accumulated state of the loop: [allfiles], [allerrors],
    [processed_files], and [extracted], the sequence of files on which
    [find_dependencies] was called (one [info] line each, line 114). *)
Record state : Type := State {
  allfiles : gmap ident (gset target);
  allerrors : list (error_kind * string);
  processed_files : gset string;
  extracted : list string
}.

Definition initial_state : state := State ∅ [] ∅ [].

(** How a piece of the loop ends: normally, or with the [TypeError] that
    [to_[0]] raises when [to_] is [None] (line 141). Both carry the data
    reached at that point. *)
Inductive result (A : Type) : Type :=
  | Ok (a : A)
  | TypeError (a : A).
Arguments Ok {A} a.
Arguments TypeError {A} a.

Definition payload {A} (r : result A) : A :=
  match r with Ok a | TypeError a => a end.

Definition is_ok {A} (r : result A) : bool :=
  match r with Ok _ => true | TypeError _ => false end.

Definition result_map {A B} (f : A → B) (r : result A) : result B :=
  match r with Ok a => Ok (f a) | TypeError a => TypeError (f a) end.

(** [d[k].add(x)] on a [defaultdict(set)]. *)
Definition dd_add (k : ident) (x : target)
    (d : gmap ident (gset target)) : gmap ident (gset target) :=
  <[k := {[x]} ∪ default ∅ (d !! k)]> d.

(** [sorted(s)] for a set of strings. *)
Definition sorted (s : gset string) : list string :=
  merge_sort String.le (elements s).

(** ** The dependency graph builder (lines 103-150) *)

Section Builder.

Variable find_dependencies : string → nat → bool → list string * list (error_kind * string).
Variable relfile : string → list string → option ident.
Variable opts : options.
Variable inroots : gset string.

(** One pass of the body of [for dfn in files] (lines 136-144). *)
Definition add_dependency (from_ : ident) (dfn : string)
    (acc : gmap ident (gset target) * gset string)
    : result (gmap ident (gset target) * gset string) :=
  let xfn := Path.collapse dfn in
  let to_ := relfile xfn (ignores opts) in
  if internal opts then
    match to_ with
    | None => TypeError acc
    | Some t =>
        if bool_decide (t.1 ∉ inroots) then Ok acc
        else Ok (dd_add from_ (to_target to_) acc.1, {[dfn]} ∪ acc.2)
    end
  else Ok (dd_add from_ (to_target to_) acc.1, {[dfn]} ∪ acc.2).

(** The loop [for dfn in files] (lines 135-144). *)
Fixpoint add_dependencies (from_ : ident) (files : list string)
    (acc : gmap ident (gset target) * gset string)
    : result (gmap ident (gset target) * gset string) :=
  match files with
  | [] => Ok acc
  | dfn :: rest =>
      match add_dependency from_ dfn acc with
      | Ok acc' => add_dependencies from_ rest acc'
      | TypeError acc' => TypeError acc'
      end
  end.

(** The body of [for fn in fiter] (lines 111-144). *)
Definition process_file (fn : string) (acc : state * gset string)
    : result (state * gset string) :=
  let '(st, newfiles) := acc in
  if bool_decide (fn ∈ processed_files st) then Ok acc
  else
    let '(files, errors) := find_dependencies fn (verbose opts) (do_pragmas opts) in
    let st1 := State (allfiles st) (allerrors st ++ errors)
                     ({[fn]} ∪ processed_files st) (extracted st ++ [fn]) in
    match relfile (Path.collapse fn) (ignores opts) with
    | None => Ok (st1, newfiles)
    | Some from_ =>
        if internal opts && bool_decide (from_.1 ∉ inroots) then Ok (st1, newfiles)
        else
          let with_deps (r : gmap ident (gset target) * gset string) :=
            (State r.1 (allerrors st1) (processed_files st1) (extracted st1), r.2) in
          match add_dependencies from_ files
                  (dd_add from_ sentinel (allfiles st1), newfiles) with
          | Ok r => Ok (with_deps r)
          | TypeError r => TypeError (with_deps r)
          end
    end.

(** One round: [newfiles = set()] and the loop [for fn in fiter]
    (lines 109-144). *)
Fixpoint process_files (fiter : list string) (acc : state * gset string)
    : result (state * gset string) :=
  match fiter with
  | [] => Ok acc
  | fn :: rest =>
      match process_file fn acc with
      | Ok acc' => process_files rest acc'
      | TypeError acc' => TypeError acc'
      end
  end.

Definition round (fiter : list string) (st : state) : result (state * gset string) :=
  process_files fiter (st, ∅).

(** Lines 147-150: [None] stands for [break], [Some l] for the next
    [fiter]. *)
Definition next_fiter (newfiles : gset string) : option (list string) :=
  if follow opts && negb (bool_decide (newfiles = ∅)) then Some (sorted newfiles)
  else None.

(** The loop [while 1] (lines 108-150), with a bound on the number of
    rounds; [None] when the bound is reached. *)
Fixpoint rounds (fuel : nat) (fiter : list string) (st : state)
    : option (result state) :=
  match fuel with
  | 0 => None
  | S fuel' =>
      match round fiter st with
      | TypeError r => Some (TypeError r.1)
      | Ok r =>
          match next_fiter r.2 with
          | None => Some (Ok r.1)
          | Some fiter' => rounds fuel' fiter' r.1
          end
      end
  end.

End Builder.

Arguments add_dependency : simpl never.
Arguments process_file : simpl never.

(** ** The end-of-run summary (lines 157-182) *)

(** The two logging functions handed to the report. *)
Inductive level : Type := WARNING | DEBUG.

#[global] Instance level_eq_dec : EqDecision level.
Proof. solve_decision. Defined.

(** Lines 158-161: the list [reports]. *)
Definition reports (verbosity : nat) : list (string * error_kind * level) :=
  [("Modules that could not be imported:", ERROR_IMPORT, WARNING)] ++
  (if bool_decide (2 ≤ verbosity)
   then [("Symbols that could not be imported as modules:", ERROR_SYMBOL, DEBUG)]
   else []).

(** Line 164: [frozenset(name for err, name in allerrors if err is errtype)]. *)
Definition names_of (errtype : error_kind)
    (errors : list (error_kind * string)) : gset string :=
  list_to_set (snd <$> filter (λ e, e.1 = errtype) errors).

(** Lines 165-169: the lines logged for one entry of [reports]. *)
Definition report_entry (errors : list (error_kind * string))
    (r : string * error_kind * level) : list (level * string) :=
  let '(msg, errtype, efun) := r in
  let names := names_of errtype errors in
  if bool_decide (names = ∅) then []
  else (efun, "") :: (efun, msg) :: ((λ name, (efun, "  " +:+ name)) <$> sorted names).

(** Lines 163-169. *)
Definition error_report (verbosity : nat)
    (errors : list (error_kind * string)) : list (level * string) :=
  concat (report_entry errors <$> reports verbosity).

(** [itemgetter(0)] on an element of an edge set that is a pair. *)
Definition target_root (t : target) : option string :=
  match t with
  | Some (r, _) => r
  | None => None
  end.

(** Lines 175-182: the roots named in [allfiles], sorted; [None] when
    [itemgetter(0)] is applied to a [None] element and raises [TypeError]. *)
Definition found_roots (d : gmap ident (gset target)) : option (list string) :=
  if decide (map_Forall (λ _ files, None ∉ files) d) then
    Some (sorted (map_fold
            (λ key files acc,
               {[key.1]} ∪ list_to_set (omap target_root (elements files)) ∪ acc)
            ∅ d))
  else None.

(** ** The command [gendeps] (lines 58-186) *)

(** How a call of [gendeps] ends. *)
Inductive outcome : Type :=
  | RootsPrinted (lines : list string)
      (** [--print-roots]: the roots are printed and the function returns *)
  | ParserError (msg : string)
      (** [parser.error(msg)]: usage and [msg] on stderr, exit status 2 *)
  | Raised (st : state) (logged : list (level * string))
      (** a [TypeError] leaves [gendeps] *)
  | Finished (st : state) (logged : list (level * string)) (roots : list string)
      (** [output_depends(allfiles)] is reached *).

Section Gendeps.

Variable find_dependencies : string → nat → bool → list string * list (error_kind * string).
Variable relfile : string → list string → option ident.
Variable find_roots : list string → list string → list string.
Variable iter_pyfiles : list string → list string → bool → list string.
Variable realpath : string → string.
Variable path_exists : string → bool.

(** Lines 75-79: the message of the first input path that does not exist. *)
Fixpoint check_args (args : list string) : option string :=
  match args with
  | [] => None
  | arg :: rest =>
      let fn := realpath arg in
      if path_exists fn then check_args rest
      else Some ("Filename '" +:+ fn +:+ "' does not exist.")
  end.

Definition no_roots_msg : string :=
  "No package roots found from the given files or directories. " +:+
  "Using --internal with these roots will generate no dependencies.".

(** Lines 61-63: without arguments, the current directory is searched. *)
Definition default_args (args : list string) : list string :=
  match args with
  | [] => ["."]
  | _ => args
  end.

(** [gendeps] after option parsing, with a bound on the number of rounds of
    the loop; [None] when the bound is reached. [find_roots] is taken as a
    function that returns a list of roots; what it does on a path that does
    not exist is not part of this model (outside [--print-roots] it is
    called after the check of lines 75-79). *)
Definition gendeps (fuel : nat) (opts : options) (args0 : list string)
    : option outcome :=
  let args := default_args args0 in
  if print_roots opts then
    Some (RootsPrinted (merge_sort String.le (find_roots args (ignores opts))))
  else
    match check_args args with
    | Some msg => Some (ParserError msg)
    | None =>
        let inroots := find_roots args (ignores opts) in
        if internal opts && bool_decide (inroots = []) then
          Some (ParserError no_roots_msg)
        else
          match rounds find_dependencies relfile opts (list_to_set inroots) fuel
                  (iter_pyfiles args (ignores opts) false) initial_state with
          | None => None
          | Some (TypeError st) => Some (Raised st [])
          | Some (Ok st) =>
              let logged := error_report (verbose opts) (allerrors st) in
              match found_roots (allfiles st) with
              | None => Some (Raised st logged)
              | Some roots => Some (Finished st logged roots)
              end
          end
    end.

End Gendeps.

(** ** Reference definitions for the comparison with the code *)

(** The next worklist in the words of the specification: the sorted set of
    the files discovered this round that are not yet processed, and none
    when follow mode is off or that set is empty. *)
Definition spec_next_worklist (follow_mode : bool)
    (newfiles processed : gset string) : option (list string) :=
  if follow_mode && negb (bool_decide (newfiles ∖ processed = ∅))
  then Some (sorted (newfiles ∖ processed))
  else None.

(** The lines of one group of the report: nothing for no name, else an
    empty line, the heading and one indented line per name. *)
Definition group_lines (lvl : level) (heading : string)
    (names : list string) : list (level * string) :=
  match names with
  | [] => []
  | _ => (lvl, "") :: (lvl, heading) :: ((λ name, (lvl, "  " +:+ name)) <$> names)
  end.

(** An extractor that reports the same files and no error. *)
Definition no_errors
    (find_dependencies : string → nat → bool → list string * list (error_kind * string))
    : string → nat → bool → list string * list (error_kind * string) :=
  λ fn v p, ((find_dependencies fn v p).1, []).

(** A state without its errors. *)
Definition forget_errors (st : state) : state :=
  State (allfiles st) [] (processed_files st) (extracted st).

(** The lines logged before a [TypeError] left [gendeps], if one did. *)
Definition raised (o : option outcome) : option (list (level * string)) :=
  match o with
  | Some (Raised _ logged) => Some logged
  | _ => None
  end.

(** An outcome without the errors and the report made from them. *)
Definition forget_outcome (o : outcome) : outcome :=
  match o with
  | RootsPrinted lines => RootsPrinted lines
  | ParserError msg => ParserError msg
  | Raised st _ => Raised (forget_errors st) []
  | Finished st _ roots => Finished (forget_errors st) [] roots
  end.

(** ** A small project to run the definitions on

    Root [/proj] holds [a.py], [b.py] and the package [pkg]; [/ext/lib.py]
    lies under another root, and nothing under [/tmp] has a root. *)

Module Demo.

Definition find_dependencies (fn : string) (_ : nat) (_ : bool)
    : list string * list (error_kind * string) :=
  if bool_decide (fn = "/proj/a.py") then
    (["/proj/b.py"; "/ext/lib.py"], [(ERROR_IMPORT, "zlib2"); (ERROR_SYMBOL, "join")])
  else if bool_decide (fn = "/proj/b.py") then
    (["/proj/a.py"; "/proj/pkg/__init__.py"], [(ERROR_IMPORT, "zlib2"); (ERROR_IMPORT, "abc2")])
  else if bool_decide (fn = "/proj/pkg/mod.py") then (["/proj/pkg"], [])
  else if bool_decide (fn = "/proj/c.py") then (["/tmp/gen.py"], [])
  else if bool_decide (fn = "/ext/lib.py") then (["/ext/dep.py"], [])
  else if bool_decide (fn = "/proj/x.py") then (["/proj/y.py"], [])
  else if bool_decide (fn = "/proj/y.py") then (["/proj/x.py"], [])
  else ([], []).

Definition relfile (fn : string) (_ : list string) : option ident :=
  if String.prefix "/proj/" fn then Some ("/proj", String.substring 6 (String.length fn - 6) fn)
  else if String.prefix "/ext/" fn then Some ("/ext", String.substring 5 (String.length fn - 5) fn)
  else None.

Definition find_roots (args : list string) (_ : list string) : list string :=
  if bool_decide (args = []) then [] else
  remove_dups ((λ a, if String.prefix "/proj" a then "/proj" else "/ext") <$>
               filter (λ a, String.prefix "/proj" a = true ∨ String.prefix "/ext" a = true) args).

Definition iter_pyfiles (args : list string) (_ : list string) (_ : bool) : list string :=
  args.

Definition realpath (fn : string) : string := fn.

Definition path_exists (fn : string) : bool :=
  bool_decide (fn ∈ ["/proj/a.py"; "/proj/b.py"; "/proj/c.py"; "/proj/x.py"; "/proj/y.py";
                     "/proj/pkg/__init__.py"; "/proj/pkg/mod.py"; "/proj/pkg";
                     "/ext/lib.py"; "/ext/dep.py"; "/tmp/gen.py"; "/tmp"]).

Definition opts (internal follow : bool) : options :=
  Options internal [] 0 follow false true.

Definition run (fuel : nat) (o : options) (args : list string) : option outcome :=
  gendeps find_dependencies relfile find_roots iter_pyfiles realpath path_exists
    fuel o args.

(** The loop alone, with [/proj] as the only internal root. *)
Definition build (fuel : nat) (o : options) (fiter : list string) (st : state)
    : option (result state) :=
  rounds find_dependencies relfile o {["/proj"]} fuel fiter st.

Definition built (o : options) (fiter : list string) : result state :=
  default (Ok initial_state) (build 8 o fiter initial_state).

(** The first round on the two modules that import each other. *)
Definition cycle_round : result (state * gset string) :=
  round find_dependencies relfile (opts false true) {["/proj"]}
    ["/proj/x.py"; "/proj/y.py"] initial_state.

(** The first round on [c.py], whose dependency has no root. *)
Definition gen_round : result (state * gset string) :=
  round find_dependencies relfile (opts false true) {["/proj"]}
    ["/proj/c.py"] initial_state.

(** The first round on [a.py] in [--internal] mode. *)
Definition internal_round : result (state * gset string) :=
  round find_dependencies relfile (opts true true) {["/proj"]}
    ["/proj/a.py"] initial_state.

(** A resolver that finds the root [/] for every name. *)
Definition relfile_all (fn : string) (_ : list string) : option ident :=
  Some ("/", String.substring 1 (String.length fn - 1) fn).

(** The dependency of [a.py] on [b.py], recorded in an empty mapping. *)
Definition one_dep : result (gmap ident (gset target) * gset string) :=
  add_dependency relfile (opts false true) {["/proj"]} ("/proj", "a.py")
    "/proj/b.py" (∅, ∅).

(** The result of the loop on [c.py] with the resolver [relfile_all]. *)
Definition built_all : result state :=
  default (Ok initial_state)
    (rounds find_dependencies relfile_all (opts false true) {["/"]} 8
       ["/proj/c.py"] initial_state).

(** The outcome of the command on [a.py] with [--internal] and
    [--follow]. *)
Definition ran : outcome :=
  default (ParserError "") (run 8 (opts true true) ["/proj/a.py"]).

(** The extractor of the project, with an initializer of [pkg] that imports
    the module [mod] of the package. *)
Definition find_dependencies_pkg (fn : string) (v : nat) (p : bool)
    : list string * list (error_kind * string) :=
  if bool_decide (fn = "/proj/pkg/__init__.py") then (["/proj/pkg/mod.py"], [])
  else find_dependencies fn v p.

(** The initializer of [pkg], processed first, in [--internal] mode. *)
Definition pkg_init : result (state * gset string) :=
  process_file find_dependencies_pkg relfile (opts true true) {["/proj"]}
    "/proj/pkg/__init__.py" (initial_state, ∅).

(** [b.py], which imports the initializer of [pkg], processed first. *)
Definition b_file : result (state * gset string) :=
  process_file find_dependencies_pkg relfile (opts true true) {["/proj"]}
    "/proj/b.py" (initial_state, ∅).

(** Every file of the project. *)
Definition universe : gset string :=
  list_to_set ["/proj/a.py"; "/proj/b.py"; "/proj/c.py"; "/proj/x.py"; "/proj/y.py";
               "/proj/pkg/__init__.py"; "/proj/pkg/mod.py"; "/proj/pkg";
               "/ext/lib.py"; "/ext/dep.py"; "/tmp/gen.py"].

End Demo.

(** ** Invariants of the builder *)

(** Every key of the mapping holds the pair [(None, None)]. *)
Definition sentinel_inv (d : gmap ident (gset target)) : Prop :=
  ∀ k files, d !! k = Some files → sentinel ∈ files.

(** No key is lost and no edge set loses a member. *)
Definition edges_le (d d' : gmap ident (gset target)) : Prop :=
  ∀ k files, d !! k = Some files → ∃ files', d' !! k = Some files' ∧ files ⊆ files'.

(** The extractor was called at most once on each file, and exactly on the
    processed files. *)
Definition trace_inv (st : state) : Prop :=
  NoDup (extracted st) ∧ ∀ f, f ∈ extracted st ↔ f ∈ processed_files st.

(** How many times [find_dependencies] was called on [f]. *)
Definition calls (f : string) (st : state) : nat :=
  length (filter (λ x, x = f) (extracted st)).

Section Invariants.

Variable find_dependencies : string → nat → bool → list string * list (error_kind * string).
Variable relfile : string → list string → option ident.
Variable opts : options.
Variable inroots : gset string.

(** [fn] is in scope with identity [id]: its collapsed name has the
    identity [id], which passes the [--internal] filter of line 130. *)
Definition in_scope (fn : string) (id : ident) : Prop :=
  relfile (Path.collapse fn) (ignores opts) = Some id ∧
  (internal opts = true → id.1 ∈ inroots).

Definition scope_inv (st : state) : Prop :=
  ∀ fn id, fn ∈ processed_files st → in_scope fn id →
    ∃ files, allfiles st !! id = Some files ∧ sentinel ∈ files.

(** In [--internal] mode every queued file has an identity under one of the
    internal roots. *)
Definition queued_internal (nf : gset string) : Prop :=
  ∀ f, f ∈ nf →
    ∃ t, relfile (Path.collapse f) (ignores opts) = Some t ∧ t.1 ∈ inroots.

(** The universe [U] of files is closed under [find_dependencies]. *)
Definition closed (U : gset string) : Prop :=
  ∀ f, f ∈ U → ∀ d, d ∈ (find_dependencies f (verbose opts) (do_pragmas opts)).1 → d ∈ U.

(** [dfn] is recorded and queued when it is met as a dependency: always
    without [--internal]; with it, when its identity lies under an internal
    root (lines 140-144). *)
Definition followed (dfn : string) : Prop :=
  internal opts = true →
  ∃ t, relfile (Path.collapse dfn) (ignores opts) = Some t ∧ t.1 ∈ inroots.

(** [d] is listed by the extractor for a file of [processed] that is in
    scope. *)
Definition dependency_of (processed : gset string) (d : string) : Prop :=
  ∃ fn id, fn ∈ processed ∧ in_scope fn id ∧
           d ∈ (find_dependencies fn (verbose opts) (do_pragmas opts)).1.

(** [t] is the target that a dependency of a file of [processed] with the
    identity [k] resolves to. *)
Definition edge_of (processed : gset string) (k : ident) (t : target) : Prop :=
  ∃ fn dfn, fn ∈ processed ∧ in_scope fn k ∧
            dfn ∈ (find_dependencies fn (verbose opts) (do_pragmas opts)).1 ∧
            t = to_target (relfile (Path.collapse dfn) (ignores opts)).

(** Every key of the mapping is the identity of a processed file in scope,
    and every member of its set is the sentinel or an edge of such a
    file. *)
Definition sound_inv (st : state) : Prop :=
  ∀ k files, allfiles st !! k = Some files →
    (∃ fn, fn ∈ processed_files st ∧ in_scope fn k) ∧
    (∀ t, t ∈ files → t = sentinel ∨ edge_of (processed_files st) k t).

(** Every dependency of a processed file in scope that is followed has its
    target recorded under the identity of the file. *)
Definition complete_inv (st : state) : Prop :=
  ∀ fn id dfn, fn ∈ processed_files st → in_scope fn id →
    dfn ∈ (find_dependencies fn (verbose opts) (do_pragmas opts)).1 →
    followed dfn →
    ∃ files, allfiles st !! id = Some files ∧
             to_target (relfile (Path.collapse dfn) (ignores opts)) ∈ files.

(** [sound_inv] for a set of processed files and a mapping. *)
Definition sound_map (S : gset string) (d : gmap ident (gset target)) : Prop :=
  ∀ k files, d !! k = Some files →
    (∃ fn, fn ∈ S ∧ in_scope fn k) ∧
    (∀ t, t ∈ files → t = sentinel ∨ edge_of S k t).

(** The followed dependencies of the processed files in scope are
    processed, listed in [w] or queued in [nf]. *)
Definition pending (st : state) (w nf : gset string) : Prop :=
  ∀ d, dependency_of (processed_files st) d → followed d →
    d ∈ processed_files st ∨ d ∈ w ∨ d ∈ nf.

(** Every processed file is a file of [w] or a dependency of a processed
    file in scope, and so is every queued file. *)
Definition reached (w : gset string) (acc : state * gset string) : Prop :=
  (∀ f, f ∈ processed_files acc.1 →
     f ∈ w ∨ dependency_of (processed_files acc.1) f) ∧
  (∀ d, d ∈ acc.2 → dependency_of (processed_files acc.1) d).

(** Every key and every recorded pair lies under an internal root, and
    [None] is not recorded. *)
Definition internal_inv (d : gmap ident (gset target)) : Prop :=
  ∀ k files, d !! k = Some files →
    k.1 ∈ inroots ∧
    (∀ t, t ∈ files → t = sentinel ∨ ∃ i, t = pair_target i ∧ i.1 ∈ inroots).

(** The errors of the files of [l], in the order of [l]. *)
Definition errors_of (l : list string) : list (error_kind * string) :=
  concat ((λ f, (find_dependencies f (verbose opts) (do_pragmas opts)).2) <$> l).

(** [relfile] finds an identity for every dependency that the extractor
    lists. *)
Definition total_on_targets : Prop :=
  ∀ fn d, d ∈ (find_dependencies fn (verbose opts) (do_pragmas opts)).1 →
    is_Some (relfile (Path.collapse d) (ignores opts)).

End Invariants.

(** [st'] extends [st]: no key and no edge is lost, no file is unmarked,
    and the errors and the trace of the extractor are extended at the
    end. *)
Definition extends (st st' : state) : Prop :=
  edges_le (allfiles st) (allfiles st') ∧
  processed_files st ⊆ processed_files st' ∧
  allerrors st `prefix_of` allerrors st' ∧
  extracted st `prefix_of` extracted st'.

(** The roots that a finished command logs under "Found roots". *)
Definition found (o : outcome) : list string :=
  match o with
  | Finished _ _ roots => roots
  | _ => []
  end.

(** [None] is not a member of any edge set. *)
Definition none_free (d : gmap ident (gset target)) : Prop :=
  ∀ k files, d !! k = Some files → None ∉ files.

(** [r] is the root of a key of [d] or of a pair of one of its sets. *)
Definition named_root (d : gmap ident (gset target)) (r : string) : Prop :=
  ∃ k files, d !! k = Some files ∧
             (r = k.1 ∨ ∃ t, t ∈ files ∧ target_root t = Some r).

(** ** Facts about path names *)

Module PathFacts.
Import Path.

Lemma app_nil_l (t : string) : "" +:+ t = t.
Proof. reflexivity. Qed.

Lemma app_cons (c : ascii) (s t : string) :
  String c s +:+ t = String c (s +:+ t).
Proof. reflexivity. Qed.

Ltac push_app := rewrite ?app_cons, ?app_nil_l.

Lemma rfind_split_no_sep (s : string) :
  no_sep s = true → rfind_split s = None.
Proof.
  induction s as [|c s IH]; simpl; [done|].
  intros [Hc Hs]%andb_prop. rewrite (IH Hs).
  by destruct (is_sep c).
Qed.

Lemma rfind_split_join (dn name : string) :
  no_sep name = true → rfind_split (join dn name) = Some (dn +:+ "/", name).
Proof.
  intros Hname. unfold join. induction dn as [|c dn IH].
  - push_app. simpl. by rewrite (rfind_split_no_sep _ Hname).
  - rewrite (app_cons c). simpl. by rewrite IH.
Qed.

Lemma all_sep_false (p : string) :
  p ≠ "" → ends_with_sep p = false → all_sep p = false.
Proof.
  induction p as [|c p IH]; [done|]. intros _. simpl.
  destruct p as [|c' p].
  - intros ->. done.
  - intros Hp. rewrite IH; [by destruct (is_sep c)|done|done].
Qed.

Lemma all_sep_app_false (p q : string) :
  all_sep p = false → all_sep (p +:+ q) = false.
Proof.
  induction p as [|c p IH]; [done|]. rewrite (app_cons c). simpl.
  destruct (is_sep c); [|done]. simpl. exact IH.
Qed.

Lemma rstrip_sep_cons (c : ascii) (r : string) :
  rstrip_sep (String c r) =
  match rstrip_sep r with
  | EmptyString => if is_sep c then EmptyString else String c EmptyString
  | r' => String c r'
  end.
Proof. reflexivity. Qed.

Lemma rstrip_sep_app_sep (p : string) :
  ends_with_sep p = false → rstrip_sep (p +:+ "/") = p.
Proof.
  induction p as [|c p IH]; [done|].
  destruct p as [|c' p].
  - push_app. simpl. by intros ->.
  - intros Hp. change (ends_with_sep (String c' p) = false) in Hp.
    rewrite (app_cons c), rstrip_sep_cons. by rewrite (IH Hp).
Qed.

Lemma basename_join (dn name : string) :
  no_sep name = true → basename (join dn name) = name.
Proof. intros Hname. unfold basename. by rewrite rfind_split_join. Qed.

Lemma dirname_join (dn name : string) :
  dn ≠ "" → ends_with_sep dn = false → no_sep name = true →
  dirname (join dn name) = dn.
Proof.
  intros Hne Hend Hname. unfold dirname. rewrite rfind_split_join by done.
  assert (is_empty (dn +:+ "/") = false) as -> by by destruct dn.
  rewrite (all_sep_app_false dn "/" (all_sep_false dn Hne Hend)). simpl.
  by apply rstrip_sep_app_sep.
Qed.

Lemma collapse_initializer (dn : string) :
  dn ≠ "" → ends_with_sep dn = false → collapse (join dn init_py) = dn.
Proof.
  intros Hne Hend. unfold collapse.
  rewrite basename_join by done. rewrite bool_decide_eq_true_2 by done.
  by apply dirname_join.
Qed.

Lemma collapse_other (fn : string) :
  basename fn ≠ init_py → collapse fn = fn.
Proof. intros Hfn. unfold collapse. by rewrite bool_decide_eq_false_2. Qed.

End PathFacts.

#[local] Set Warnings "-clear-no-such-hyp".

(** ** Facts about [sorted] *)

Lemma elem_of_sorted (x : string) (s : gset string) : x ∈ sorted s ↔ x ∈ s.
Proof. unfold sorted. by rewrite merge_sort_Permutation, elem_of_elements. Qed.

Lemma NoDup_sorted (s : gset string) : NoDup (sorted s).
Proof. unfold sorted. rewrite merge_sort_Permutation. apply NoDup_elements. Qed.

Lemma Sorted_sorted (s : gset string) : Sorted String.le (sorted s).
Proof. unfold sorted. apply (Sorted_merge_sort _). Qed.

Lemma sorted_empty : sorted ∅ = [].
Proof. unfold sorted. by rewrite elements_empty. Qed.

Lemma sorted_nil_inv (s : gset string) : sorted s = [] → s = ∅.
Proof.
  intros Hnil. apply set_eq. intros x. rewrite <- elem_of_sorted, Hnil.
  set_solver.
Qed.

Lemma difference_shrinks (U A B : gset string) :
  A ⊂ B → B ⊆ U → U ∖ B ⊂ U ∖ A.
Proof.
  intros [Hsub Hstrict] HB. split.
  - intros x [HxU HxB]%elem_of_difference. apply elem_of_difference.
    split; [done|]. intros HxA. by apply HxB, Hsub.
  - intros Hrev. apply Hstrict. intros x HxB.
    destruct (decide (x ∈ A)) as [|HxA]; [done|]. exfalso.
    assert (x ∈ U ∖ B) as [_ Hno]%elem_of_difference; [|done].
    apply Hrev, elem_of_difference. split; [by apply HB|done].
Qed.

(** ** Facts about the edge mapping *)

Lemma dd_add_lookup_eq k x d :
  dd_add k x d !! k = Some ({[x]} ∪ default ∅ (d !! k)).
Proof. unfold dd_add. by rewrite lookup_insert_eq. Qed.

Lemma dd_add_lookup_ne k k' x d :
  k ≠ k' → dd_add k x d !! k' = d !! k'.
Proof. intros Hne. unfold dd_add. by rewrite lookup_insert_ne. Qed.

Lemma edges_le_refl d : edges_le d d.
Proof. intros k files Hk. by exists files. Qed.

Lemma edges_le_trans d1 d2 d3 : edges_le d1 d2 → edges_le d2 d3 → edges_le d1 d3.
Proof.
  intros H12 H23 k files Hk.
  destruct (H12 _ _ Hk) as (files2 & Hk2 & Hsub2).
  destruct (H23 _ _ Hk2) as (files3 & Hk3 & Hsub3).
  exists files3. split; [done|]. by etrans.
Qed.

Lemma dd_add_le k x d : edges_le d (dd_add k x d).
Proof.
  intros k' files Hk'. destruct (decide (k = k')) as [->|Hne].
  - rewrite dd_add_lookup_eq, Hk'. simpl. eexists; split; [done|]. set_solver.
  - rewrite dd_add_lookup_ne by done. by exists files.
Qed.

Lemma dd_add_elem k x d :
  ∃ files, dd_add k x d !! k = Some files ∧ x ∈ files.
Proof. rewrite dd_add_lookup_eq. eexists; split; [done|]. set_solver. Qed.

Lemma sentinel_inv_empty : sentinel_inv ∅.
Proof. intros k files Hk. by rewrite lookup_empty in Hk. Qed.

Lemma sentinel_inv_add_sentinel k d :
  sentinel_inv d → sentinel_inv (dd_add k sentinel d).
Proof.
  intros Hd k' files. destruct (decide (k = k')) as [->|Hne].
  - rewrite dd_add_lookup_eq. intros [= <-]. set_solver.
  - rewrite dd_add_lookup_ne by done. apply Hd.
Qed.

Lemma sentinel_inv_add_present k x d :
  sentinel_inv d → is_Some (d !! k) → sentinel_inv (dd_add k x d).
Proof.
  intros Hd [files0 Hk] k' files. destruct (decide (k = k')) as [->|Hne].
  - rewrite dd_add_lookup_eq, Hk. simpl. intros [= <-].
    specialize (Hd _ _ Hk). set_solver.
  - rewrite dd_add_lookup_ne by done. apply Hd.
Qed.

(** ** Facts about the builder *)

Section BuilderFacts.

Variable find_dependencies : string → nat → bool → list string * list (error_kind * string).
Variable relfile : string → list string → option ident.
Variable opts : options.
Variable inroots : gset string.

Local Abbreviation add_dependency := (add_dependency relfile opts inroots).
Local Abbreviation add_dependencies := (add_dependencies relfile opts inroots).
Local Abbreviation process_file := (process_file find_dependencies relfile opts inroots).
Local Abbreviation process_files := (process_files find_dependencies relfile opts inroots).
Local Abbreviation round := (round find_dependencies relfile opts inroots).
Local Abbreviation rounds := (rounds find_dependencies relfile opts inroots).
Local Abbreviation next_fiter := (next_fiter opts).

Local Abbreviation in_scope := (in_scope relfile opts inroots).
Local Abbreviation scope_inv := (scope_inv relfile opts inroots).
Local Abbreviation queued_internal := (queued_internal relfile opts inroots).
Local Abbreviation closed := (closed find_dependencies opts).

(** The files that [find_dependencies] returns for [fn]. *)
Local Abbreviation deps_of fn := (find_dependencies fn (verbose opts) (do_pragmas opts)).1.

(** *** The loop over the dependencies of one file *)

Lemma add_dependency_payload from_ dfn acc :
  payload (add_dependency from_ dfn acc) = acc ∨
  payload (add_dependency from_ dfn acc) =
    (dd_add from_ (to_target (relfile (Path.collapse dfn) (ignores opts))) acc.1,
     {[dfn]} ∪ acc.2).
Proof.
  unfold add_dependency.
  destruct (internal opts); [|by right].
  destruct (relfile _ _) as [t|]; [|by left].
  case_bool_decide; [by left|by right].
Qed.

Lemma add_dependencies_ind (J : gmap ident (gset target) * gset string → Prop)
    (P : string → Prop) from_ :
  (∀ dfn acc, P dfn → J acc → J (payload (add_dependency from_ dfn acc))) →
  ∀ files acc, Forall P files → J acc →
    J (payload (add_dependencies from_ files acc)).
Proof.
  intros Hstep files. induction files as [|dfn files IH]; intros acc HP HJ; [done|].
  apply Forall_cons in HP as [Hdfn HP]. simpl.
  specialize (Hstep dfn acc Hdfn HJ).
  destruct (add_dependency from_ dfn acc) as [acc'|acc']; simpl in *; [|done].
  by apply IH.
Qed.

Lemma add_dependencies_le from_ files acc :
  edges_le acc.1 (payload (add_dependencies from_ files acc)).1.
Proof.
  apply (add_dependencies_ind (λ acc', edges_le acc.1 acc'.1) (λ _, True)).
  - intros dfn acc' _ Hle.
    destruct (add_dependency_payload from_ dfn acc') as [-> | ->]; [done|].
    eapply edges_le_trans; [done|]. apply dd_add_le.
  - by apply Forall_true.
  - apply edges_le_refl.
Qed.

Lemma add_dependencies_sentinel from_ files acc :
  sentinel_inv acc.1 → is_Some (acc.1 !! from_) →
  sentinel_inv (payload (add_dependencies from_ files acc)).1.
Proof.
  intros Hinv Hkey.
  apply (add_dependencies_ind
           (λ acc', sentinel_inv acc'.1 ∧ is_Some (acc'.1 !! from_)) (λ _, True));
    [|by apply Forall_true|done].
  intros dfn acc' _ [Hinv' Hkey'].
  destruct (add_dependency_payload from_ dfn acc') as [-> | ->]; [done|]. simpl.
  split; [by apply sentinel_inv_add_present|].
  rewrite dd_add_lookup_eq. done.
Qed.

(** *** One file of the worklist *)

Lemma process_file_skip fn acc :
  fn ∈ processed_files acc.1 → process_file fn acc = Ok acc.
Proof.
  intros Hfn. unfold process_file. destruct acc as [st nf].
  by rewrite bool_decide_eq_true_2.
Qed.

(** What [process_file] leaves behind for a file that was not processed
    before: the file is marked and logged, its errors are appended, and
    either nothing else changes (no identity, or an identity outside the
    internal roots), or its edges are added under its identity. *)
Lemma process_file_fresh fn st nf :
  fn ∉ processed_files st →
  ∃ st' nf',
    payload (process_file fn (st, nf)) = (st', nf') ∧
    processed_files st' = {[fn]} ∪ processed_files st ∧
    extracted st' = extracted st ++ [fn] ∧
    allerrors st' = allerrors st ++ (find_dependencies fn (verbose opts) (do_pragmas opts)).2 ∧
    ((allfiles st' = allfiles st ∧ nf' = nf ∧
      (relfile (Path.collapse fn) (ignores opts) = None ∨
       ∃ from_, relfile (Path.collapse fn) (ignores opts) = Some from_ ∧
                internal opts = true ∧ from_.1 ∉ inroots)) ∨
     (∃ from_, relfile (Path.collapse fn) (ignores opts) = Some from_ ∧
        (internal opts = true → from_.1 ∈ inroots) ∧
        (allfiles st', nf') =
          payload (add_dependencies from_ (deps_of fn)
                     (dd_add from_ sentinel (allfiles st), nf)))).
Proof.
  intros Hfn. unfold process_file.
  rewrite bool_decide_eq_false_2 by done.
  destruct (find_dependencies fn _ _) as [files errors]. simpl.
  destruct (relfile (Path.collapse fn) _) as [from_|];
    [|eexists _, _; split; [done|]; naive_solver].
  destruct (internal opts); simpl.
  - case_bool_decide as Hroot; simpl;
      [eexists _, _; split; [done|]; naive_solver|].
    destruct (add_dependencies _ _ _) as [r|r] eqn:Hr; simpl;
      (eexists _, _; split; [done|]; simpl;
       split_and!; [done..|]; right; exists from_; split_and!; [done..|]);
      rewrite Hr; by destruct r.
  - destruct (add_dependencies _ _ _) as [r|r] eqn:Hr; simpl;
      (eexists _, _; split; [done|]; simpl;
       split_and!; [done..|]; right; exists from_; split_and!; [done..|]);
      rewrite Hr; by destruct r.
Qed.

Lemma process_files_ind (J : state * gset string → Prop) (P : string → Prop) :
  (∀ fn acc, P fn → J acc → J (payload (process_file fn acc))) →
  ∀ fiter acc, Forall P fiter → J acc → J (payload (process_files fiter acc)).
Proof.
  intros Hstep fiter. induction fiter as [|fn fiter IH]; intros acc HP HJ; [done|].
  apply Forall_cons in HP as [Hfn HP]. simpl.
  specialize (Hstep fn acc Hfn HJ).
  destruct (process_file fn acc) as [acc'|acc']; simpl in *; [|done].
  by apply IH.
Qed.

Lemma rounds_ind (J : state → Prop) :
  (∀ fiter st, J st → J (payload (round fiter st)).1) →
  ∀ fuel fiter st r, J st → rounds fuel fiter st = Some r → J (payload r).
Proof.
  intros Hstep fuel. induction fuel as [|fuel IH]; intros fiter st r HJ; [done|].
  simpl. specialize (Hstep fiter st HJ).
  destruct (round fiter st) as [acc|acc]; simpl in *.
  - destruct (next_fiter acc.2) as [fiter'|].
    + by apply IH.
    + by intros [= <-].
  - by intros [= <-].
Qed.

(** *** The processed set only grows *)

Lemma process_file_processed_mono fn acc :
  processed_files acc.1 ⊆ processed_files (payload (process_file fn acc)).1.
Proof.
  destruct (decide (fn ∈ processed_files acc.1)) as [Hin|Hout].
  - by rewrite process_file_skip.
  - destruct acc as [st nf].
    destruct (process_file_fresh fn st nf Hout) as (st' & nf' & -> & Hst' & _).
    simpl. rewrite Hst'. set_solver.
Qed.

Lemma process_file_marks fn acc :
  fn ∈ processed_files (payload (process_file fn acc)).1.
Proof.
  destruct (decide (fn ∈ processed_files acc.1)) as [Hin|Hout].
  - by rewrite process_file_skip.
  - destruct acc as [st nf].
    destruct (process_file_fresh fn st nf Hout) as (st' & nf' & -> & Hst' & _).
    simpl. rewrite Hst'. set_solver.
Qed.

Lemma process_files_processed_mono fiter acc :
  processed_files acc.1 ⊆ processed_files (payload (process_files fiter acc)).1.
Proof.
  apply (process_files_ind
           (λ acc', processed_files acc.1 ⊆ processed_files acc'.1) (λ _, True));
    [|by apply Forall_true|done].
  intros fn acc' _ Hsub. etrans; [done|]. apply process_file_processed_mono.
Qed.

Lemma process_files_marks fiter acc acc' :
  process_files fiter acc = Ok acc' →
  ∀ fn, fn ∈ fiter → fn ∈ processed_files acc'.1.
Proof.
  revert acc. induction fiter as [|fn0 fiter IH]; intros acc Hrun fn Hfn.
  - by apply elem_of_nil in Hfn.
  - simpl in Hrun.
    pose proof (process_file_marks fn0 acc) as Hmark.
    destruct (process_file fn0 acc) as [acc1|acc1]; [|done]. simpl in Hmark.
    apply elem_of_cons in Hfn as [->|Hfn]; [|by eapply IH].
    pose proof (process_files_processed_mono fiter acc1) as Hmono.
    rewrite Hrun in Hmono. simpl in Hmono. set_solver.
Qed.

Lemma round_processed_mono fiter st :
  processed_files st ⊆ processed_files (payload (round fiter st)).1.
Proof. apply (process_files_processed_mono fiter (st, ∅)). Qed.

Lemma rounds_processed_mono fuel fiter st r :
  rounds fuel fiter st = Some r →
  processed_files st ⊆ processed_files (payload r).
Proof.
  apply (rounds_ind (λ st', processed_files st ⊆ processed_files st')); [|done].
  intros fiter' st' Hsub. etrans; [done|]. apply round_processed_mono.
Qed.

Lemma rounds_marks fuel fiter st st' :
  rounds fuel fiter st = Some (Ok st') →
  ∀ fn, fn ∈ fiter → fn ∈ processed_files st'.
Proof.
  destruct fuel as [|fuel]; [done|]. simpl. intros Hrun fn Hfn.
  destruct (round fiter st) as [acc|acc] eqn:Hround; [|done].
  pose proof (process_files_marks fiter (st, ∅) acc Hround fn Hfn) as Hmark.
  destruct (next_fiter acc.2) as [fiter'|].
  - apply rounds_processed_mono in Hrun. simpl in Hrun. set_solver.
  - by injection Hrun as <-.
Qed.

(** *** Every key holds the sentinel *)

Lemma process_file_sentinel fn acc :
  sentinel_inv (allfiles acc.1) →
  sentinel_inv (allfiles (payload (process_file fn acc)).1).
Proof.
  intros Hinv. destruct (decide (fn ∈ processed_files acc.1)) as [Hin|Hout].
  { by rewrite process_file_skip. }
  destruct acc as [st nf].
  destruct (process_file_fresh fn st nf Hout)
    as (st' & nf' & -> & _ & _ & _ & [(Hsame & _) | (from_ & _ & _ & Heq)]);
    simpl in *; [by rewrite Hsame|].
  apply (f_equal fst) in Heq. simpl in Heq. rewrite Heq.
  apply add_dependencies_sentinel; simpl.
  - by apply sentinel_inv_add_sentinel.
  - by rewrite dd_add_lookup_eq.
Qed.

Lemma round_sentinel fiter st :
  sentinel_inv (allfiles st) →
  sentinel_inv (allfiles (payload (round fiter st)).1).
Proof.
  intros Hinv.
  apply (process_files_ind (λ acc, sentinel_inv (allfiles acc.1)) (λ _, True));
    [|by apply Forall_true|done].
  intros fn acc _. apply process_file_sentinel.
Qed.

(** *** Every file in scope has its node *)

Lemma scope_inv_le st st' :
  scope_inv st → edges_le (allfiles st) (allfiles st') →
  ∀ fn id, fn ∈ processed_files st → in_scope fn id →
    ∃ files, allfiles st' !! id = Some files ∧ sentinel ∈ files.
Proof.
  intros Hinv Hle fn id Hfn Hscope.
  destruct (Hinv fn id Hfn Hscope) as (files & Hk & Hs).
  destruct (Hle _ _ Hk) as (files' & Hk' & Hsub).
  exists files'. split; [done|]. set_solver.
Qed.

Lemma process_file_scope fn acc :
  scope_inv acc.1 → scope_inv (payload (process_file fn acc)).1.
Proof.
  intros Hinv. destruct (decide (fn ∈ processed_files acc.1)) as [Hin|Hout].
  { by rewrite process_file_skip. }
  destruct acc as [st nf]. simpl in Hinv.
  destruct (process_file_fresh fn st nf Hout)
    as (st' & nf' & -> & Hproc & _ & _ & Hcases).
  intros fn' id Hfn' Hscope. simpl in *. rewrite Hproc in Hfn'.
  destruct Hcases as [(Hsame & _ & Hwhy) | (from_ & Hfrom & _ & Heq)].
  - rewrite Hsame. apply elem_of_union in Hfn' as [->%elem_of_singleton|Hold].
    + destruct Hscope as [Hrel Hint].
      destruct Hwhy as [Hnone | (from_ & Hfrom & Hon & Hext)]; [congruence|].
      rewrite Hrel in Hfrom. injection Hfrom as ->. by apply Hint in Hon.
    + by apply (Hinv fn' id).
  - apply (f_equal fst) in Heq. simpl in Heq.
    pose proof (add_dependencies_le from_ (deps_of fn)
                  (dd_add from_ sentinel (allfiles st), nf)) as Hle.
    rewrite <- Heq in Hle. simpl in Hle.
    apply elem_of_union in Hfn' as [->%elem_of_singleton|Hold].
    + destruct Hscope as [Hrel _]. rewrite Hrel in Hfrom. injection Hfrom as ->.
      destruct (dd_add_elem from_ sentinel (allfiles st)) as (files & Hk & Hs).
      destruct (Hle _ _ Hk) as (files' & Hk' & Hsub).
      exists files'. split; [done|]. set_solver.
    + eapply (scope_inv_le st); [done| |done|done].
      eapply edges_le_trans; [apply dd_add_le|done].
Qed.

Lemma round_scope fiter st :
  scope_inv st → scope_inv (payload (round fiter st)).1.
Proof.
  intros Hinv.
  apply (process_files_ind (λ acc, scope_inv acc.1) (λ _, True));
    [|by apply Forall_true|done].
  intros fn acc _. apply process_file_scope.
Qed.

(** *** The extractor is called once per file *)

Lemma NoDup_count (f : string) (l : list string) :
  NoDup l → length (filter (λ x, x = f) l) = if bool_decide (f ∈ l) then 1 else 0.
Proof.
  induction 1 as [|x l Hx Hl IH]; [done|].
  rewrite filter_cons. destruct (decide (x = f)) as [->|Hne].
  - rewrite bool_decide_eq_true_2 by set_solver. simpl. rewrite IH.
    by rewrite bool_decide_eq_false_2.
  - rewrite IH. rewrite (bool_decide_ext (f ∈ l) (f ∈ x :: l)); [done|].
    set_solver.
Qed.

Lemma trace_inv_calls st f :
  trace_inv st → calls f st = if bool_decide (f ∈ processed_files st) then 1 else 0.
Proof.
  intros [Hnodup Hsame]. unfold calls. rewrite NoDup_count by done.
  by rewrite (bool_decide_ext _ _ (Hsame f)).
Qed.

Lemma process_file_trace fn acc :
  trace_inv acc.1 → trace_inv (payload (process_file fn acc)).1.
Proof.
  intros [Hnodup Hsame]. destruct (decide (fn ∈ processed_files acc.1)) as [Hin|Hout].
  { by rewrite process_file_skip. }
  destruct acc as [st nf]. simpl in *.
  destruct (process_file_fresh fn st nf Hout)
    as (st' & nf' & -> & Hproc & Hext & _).
  simpl. split.
  - rewrite Hext. apply NoDup_app. split_and!; [done| |apply NoDup_singleton].
    intros f Hf ->%list_elem_of_singleton. by apply Hout, Hsame.
  - intros f. rewrite Hext, Hproc, elem_of_app, list_elem_of_singleton, Hsame.
    set_solver.
Qed.

Lemma round_trace fiter st :
  trace_inv st → trace_inv (payload (round fiter st)).1.
Proof.
  intros Hinv.
  apply (process_files_ind (λ acc, trace_inv acc.1) (λ _, True));
    [|by apply Forall_true|done].
  intros fn acc _. apply process_file_trace.
Qed.

(** *** What a round queues *)

Lemma add_dependencies_newfiles from_ files acc :
  (payload (add_dependencies from_ files acc)).2 ⊆ acc.2 ∪ list_to_set files.
Proof.
  apply (add_dependencies_ind
           (λ acc', acc'.2 ⊆ acc.2 ∪ list_to_set files) (λ dfn, dfn ∈ files)).
  - intros dfn acc' Hdfn Hsub.
    destruct (add_dependency_payload from_ dfn acc') as [-> | ->]; [done|].
    simpl. set_solver.
  - by apply Forall_forall.
  - set_solver.
Qed.

Lemma process_file_newfiles fn acc :
  (payload (process_file fn acc)).2 ⊆ acc.2 ∪ list_to_set (deps_of fn).
Proof.
  destruct (decide (fn ∈ processed_files acc.1)) as [Hin|Hout].
  { rewrite process_file_skip by done. set_solver. }
  destruct acc as [st nf].
  destruct (process_file_fresh fn st nf Hout)
    as (st' & nf' & -> & _ & _ & _ & [(_ & -> & _) | (from_ & _ & _ & Heq)]);
    simpl; [set_solver|].
  apply (f_equal snd) in Heq. simpl in Heq. rewrite Heq.
  apply (add_dependencies_newfiles from_ _ (_, nf)).
Qed.

Lemma add_dependency_internal from_ dfn acc :
  internal opts = true → queued_internal acc.2 →
  queued_internal (payload (add_dependency from_ dfn acc)).2.
Proof.
  intros Hint Hq. unfold add_dependency. rewrite Hint.
  destruct (relfile (Path.collapse dfn) (ignores opts)) as [t|] eqn:Ht; [|done].
  case_bool_decide as Hroot; [done|]. simpl.
  intros f [->%elem_of_singleton|Hf]%elem_of_union; [|by apply Hq].
  by exists t.
Qed.

Lemma process_file_internal fn acc :
  internal opts = true → queued_internal acc.2 →
  queued_internal (payload (process_file fn acc)).2.
Proof.
  intros Hint Hq. destruct (decide (fn ∈ processed_files acc.1)) as [Hin|Hout].
  { by rewrite process_file_skip. }
  destruct acc as [st nf].
  destruct (process_file_fresh fn st nf Hout)
    as (st' & nf' & -> & _ & _ & _ & [(_ & -> & _) | (from_ & _ & _ & Heq)]);
    simpl; [done|].
  apply (f_equal snd) in Heq. simpl in Heq. rewrite Heq.
  apply (add_dependencies_ind (λ acc', queued_internal acc'.2) (λ _, True));
    [|by apply Forall_true|done].
  intros dfn acc' _. by apply add_dependency_internal.
Qed.

Lemma round_internal fiter st :
  internal opts = true → queued_internal (payload (round fiter st)).2.
Proof.
  intros Hint.
  apply (process_files_ind (λ acc, queued_internal acc.2) (λ _, True));
    [|by apply Forall_true|].
  - intros fn acc _. by apply process_file_internal.
  - intros f Hf. simpl in Hf. set_solver.
Qed.

(** *** Progress and bounds of a round *)

Lemma process_file_bounded U fn acc :
  closed U → fn ∈ U →
  processed_files acc.1 ⊆ U ∧ acc.2 ⊆ U →
  processed_files (payload (process_file fn acc)).1 ⊆ U ∧
  (payload (process_file fn acc)).2 ⊆ U.
Proof.
  intros Hclosed Hfn [Hproc Hnf]. split.
  - destruct (decide (fn ∈ processed_files acc.1)) as [Hin|Hout].
    { by rewrite process_file_skip. }
    destruct acc as [st nf].
    destruct (process_file_fresh fn st nf Hout) as (st' & nf' & -> & Hst' & _).
    simpl in *. rewrite Hst'. set_solver.
  - etrans; [apply process_file_newfiles|].
    specialize (Hclosed fn Hfn). set_solver.
Qed.

Lemma round_bounded U fiter st :
  closed U → (∀ f, f ∈ fiter → f ∈ U) → processed_files st ⊆ U →
  processed_files (payload (round fiter st)).1 ⊆ U ∧
  (payload (round fiter st)).2 ⊆ U.
Proof.
  intros Hclosed Hfiter Hproc.
  apply (process_files_ind
           (λ acc, processed_files acc.1 ⊆ U ∧ acc.2 ⊆ U) (λ f, f ∈ U)).
  - intros fn acc. by apply process_file_bounded.
  - by apply Forall_forall.
  - simpl. set_solver.
Qed.

Lemma process_file_progress fn acc :
  payload (process_file fn acc) = acc ∨
  processed_files acc.1 ⊂ processed_files (payload (process_file fn acc)).1.
Proof.
  destruct (decide (fn ∈ processed_files acc.1)) as [Hin|Hout].
  { left. by rewrite process_file_skip. }
  right. destruct acc as [st nf].
  destruct (process_file_fresh fn st nf Hout) as (st' & nf' & -> & Hst' & _).
  simpl in *. rewrite Hst'. set_solver.
Qed.

Lemma process_files_progress fiter acc :
  payload (process_files fiter acc) = acc ∨
  processed_files acc.1 ⊂ processed_files (payload (process_files fiter acc)).1.
Proof.
  apply (process_files_ind
           (λ acc', acc' = acc ∨ processed_files acc.1 ⊂ processed_files acc'.1)
           (λ _, True)); [|by apply Forall_true|by left].
  intros fn acc' _ [->|Hlt]; [apply process_file_progress|].
  right. pose proof (process_file_processed_mono fn acc'). set_solver.
Qed.

Lemma round_progress fiter st :
  (payload (round fiter st)).2 ≠ ∅ →
  processed_files st ⊂ processed_files (payload (round fiter st)).1.
Proof.
  intros Hnf. destruct (process_files_progress fiter (st, ∅)) as [Hsame|Hlt]; [|done].
  unfold round in Hnf. by rewrite Hsame in Hnf.
Qed.

Lemma next_fiter_Some nf fiter' :
  next_fiter nf = Some fiter' →
  follow opts = true ∧ nf ≠ ∅ ∧ fiter' = sorted nf.
Proof.
  unfold next_fiter. destruct (follow opts); simpl; [|done].
  case_bool_decide; simpl; [done|]. by intros [= <-].
Qed.

Lemma rounds_terminate U fuel fiter st :
  closed U → (∀ f, f ∈ fiter → f ∈ U) → processed_files st ⊆ U →
  size (U ∖ processed_files st) < fuel →
  ∃ r, rounds fuel fiter st = Some r ∧ processed_files (payload r) ⊆ U.
Proof.
  intros Hclosed. revert fiter st.
  induction fuel as [|fuel IH]; intros fiter st Hfiter Hproc Hsize; [lia|].
  simpl.
  destruct (round_bounded U fiter st Hclosed Hfiter Hproc) as [Hproc' Hnf'].
  pose proof (round_progress fiter st) as Hprog.
  destruct (round fiter st) as [acc|acc]; simpl in *; [|by eexists].
  destruct (next_fiter acc.2) as [fiter'|] eqn:Hnext; [|by eexists].
  apply next_fiter_Some in Hnext as (_ & Hne & ->).
  apply IH; [|done|].
  - intros f Hf%elem_of_sorted. set_solver.
  - specialize (Hprog Hne).
    pose proof (difference_shrinks U _ _ Hprog Hproc') as Hlt.
    apply subset_size in Hlt. lia.
Qed.

(** *** The claims about the loop *)

(** Claim C1, as amended. In [--internal] mode a dependency whose identity
    has a root outside the internal roots is skipped as a whole by the
    [continue] of line 142: no edge is recorded and the file is not added to
    [newfiles]. Hence every file that a round queues has an identity under
    an internal root. *)
Theorem external_target_not_queued :
  internal opts = true →
  (∀ from_ dfn acc t,
     relfile (Path.collapse dfn) (ignores opts) = Some t → t.1 ∉ inroots →
     add_dependency from_ dfn acc = Ok acc) ∧
  (∀ fiter st, queued_internal (payload (round fiter st)).2).
Proof.
  intros Hint. split.
  - intros from_ dfn acc t Ht Hroot. unfold add_dependency.
    rewrite Hint, Ht. by rewrite bool_decide_eq_true_2.
  - intros fiter st. by apply round_internal.
Qed.

(** Claim C3. After a run from the empty state, every processed file whose
    collapsed name has an identity that passes the [--internal] filter has
    that identity as a key of [allfiles], with [(None, None)] in its set;
    and when the run completes, every file of the first worklist is a
    processed file. *)
Theorem in_scope_file_has_node fuel fiter r :
  rounds fuel fiter initial_state = Some r →
  (∀ fn id, fn ∈ processed_files (payload r) → in_scope fn id →
     ∃ files, allfiles (payload r) !! id = Some files ∧ sentinel ∈ files) ∧
  (∀ st, r = Ok st → ∀ fn, fn ∈ fiter → fn ∈ processed_files st).
Proof.
  intros Hrun. split.
  - apply (rounds_ind scope_inv round_scope fuel fiter initial_state r); [|done].
    intros fn id Hfn. simpl in Hfn. set_solver.
  - intros st ->. by eapply rounds_marks.
Qed.

(** Claim C7. When the files of the worklist and the dependencies of every
    file lie in a finite set [U], the loop ends within
    [size (U ∖ processed_files st) + 1] rounds; the processed set only
    grows and stays within [U], and no file is extracted twice. *)
Theorem worklist_loop_terminates U fuel fiter st :
  closed U → (∀ f, f ∈ fiter → f ∈ U) →
  processed_files st ⊆ U → trace_inv st →
  size (U ∖ processed_files st) < fuel →
  ∃ r, rounds fuel fiter st = Some r ∧
       processed_files st ⊆ processed_files (payload r) ∧
       processed_files (payload r) ⊆ U ∧
       NoDup (extracted (payload r)).
Proof.
  intros Hclosed Hfiter Hproc Hinv Hfuel.
  destruct (rounds_terminate U fuel fiter st Hclosed Hfiter Hproc Hfuel)
    as (r & Hrun & Hbound).
  exists r. split_and!; [done| |done|].
  - by eapply rounds_processed_mono.
  - by apply (rounds_ind trace_inv round_trace fuel fiter st r).
Qed.

(** Claim C10. The property that every key of [allfiles] holds
    [(None, None)] is kept by each step: by the recording of one dependency
    under a key that is present, by the processing of one file, and by any
    number of rounds. *)
Theorem every_key_holds_sentinel st :
  sentinel_inv (allfiles st) →
  (∀ from_ dfn nf, is_Some (allfiles st !! from_) →
     sentinel_inv (payload (add_dependency from_ dfn (allfiles st, nf))).1) ∧
  (∀ fn nf, sentinel_inv (allfiles (payload (process_file fn (st, nf))).1)) ∧
  (∀ fuel fiter r, rounds fuel fiter st = Some r →
     sentinel_inv (allfiles (payload r))).
Proof.
  intros Hinv. split_and!.
  - intros from_ dfn nf Hkey.
    destruct (add_dependency_payload from_ dfn (allfiles st, nf)) as [-> | ->];
      [done|]. by apply sentinel_inv_add_present.
  - intros fn nf. by apply (process_file_sentinel fn (st, nf)).
  - intros fuel fiter r.
    by apply (rounds_ind (λ st', sentinel_inv (allfiles st')) round_sentinel).
Qed.

Lemma process_file_records fn st nf id :
  fn ∉ processed_files st → in_scope fn id →
  ∃ files, allfiles (payload (process_file fn (st, nf))).1 !! id = Some files ∧
           sentinel ∈ files.
Proof.
  intros Hout [Hrel Hint].
  destruct (process_file_fresh fn st nf Hout)
    as (st' & nf' & -> & _ & _ & _ & [(_ & _ & Hwhy) | (from_ & Hfrom & _ & Heq)]).
  - destruct Hwhy as [Hnone | (from_ & Hfrom & Hon & Hext)]; [congruence|].
    rewrite Hrel in Hfrom. injection Hfrom as ->. by apply Hint in Hon.
  - rewrite Hrel in Hfrom. injection Hfrom as ->.
    apply (f_equal fst) in Heq. simpl in Heq. simpl. rewrite Heq.
    destruct (dd_add_elem from_ sentinel (allfiles st)) as (files & Hk & Hs).
    destruct (add_dependencies_le from_ (deps_of fn)
                (dd_add from_ sentinel (allfiles st), nf) _ _ Hk)
      as (files' & Hk' & Hsub).
    exists files'. split; [done|]. set_solver.
Qed.

Lemma add_dependency_recorded from_ dfn d nf id :
  in_scope dfn id →
  add_dependency from_ dfn (d, nf) = Ok (dd_add from_ (pair_target id) d, {[dfn]} ∪ nf).
Proof.
  intros [Hrel Hint]. unfold add_dependency. rewrite Hrel. simpl.
  destruct (internal opts); [|done].
  rewrite bool_decide_eq_false_2; [done|]. intros Hno. by apply Hno, Hint.
Qed.

(** Claim C6, as amended. After a round that ends normally with the set
    [nf] of queued files: without follow mode the loop stops; with follow
    mode it stops when [nf] is empty, and otherwise goes on with
    [sorted nf], the sorted list without repetition of every queued file,
    processed or not; a processed file of that list is skipped when it is
    reached. *)
Theorem next_round_worklist fuel fiter st st' nf :
  round fiter st = Ok (st', nf) →
  (follow opts = false → rounds (S fuel) fiter st = Some (Ok st')) ∧
  (follow opts = true → nf = ∅ → rounds (S fuel) fiter st = Some (Ok st')) ∧
  (follow opts = true → nf ≠ ∅ →
     rounds (S fuel) fiter st = rounds fuel (sorted nf) st' ∧
     Sorted String.le (sorted nf) ∧ NoDup (sorted nf) ∧
     (∀ f, f ∈ sorted nf ↔ f ∈ nf) ∧
     (∀ f acc, f ∈ processed_files acc.1 → process_file f acc = Ok acc)).
Proof.
  intros Hround. simpl. rewrite Hround. simpl. unfold next_fiter.
  split_and!.
  - by intros ->.
  - intros -> ->. by rewrite bool_decide_eq_true_2.
  - intros -> Hne. rewrite bool_decide_eq_false_2 by done. simpl.
    split_and!; [done|apply Sorted_sorted|apply NoDup_sorted| |].
    + intros f. apply elem_of_sorted.
    + intros f acc. apply process_file_skip.
Qed.

End BuilderFacts.

(** ** Facts about the report *)

Lemma elem_of_names_of errtype errors name :
  name ∈ names_of errtype errors ↔ (errtype, name) ∈ errors.
Proof.
  unfold names_of. rewrite elem_of_list_to_set, list_elem_of_fmap. split.
  - intros ([k n] & -> & [Hk Hin]%list_elem_of_filter). simpl in *. by subst.
  - intros Hin. exists (errtype, name). split; [done|].
    by apply list_elem_of_filter.
Qed.

Lemma report_entry_group errors heading errtype lvl :
  report_entry errors (heading, errtype, lvl) =
  group_lines lvl heading (sorted (names_of errtype errors)).
Proof.
  unfold report_entry. case_bool_decide as Hnames.
  - by rewrite Hnames, sorted_empty.
  - destruct (sorted (names_of errtype errors)) eqn:Hsorted; [|done].
    by apply sorted_nil_inv in Hsorted.
Qed.

(** Claim C8. The report is made of one group per kind of error: the names
    of a group are those of the errors of that kind, sorted and without
    repetition; the group of the modules that could not be imported is
    logged as a warning whatever the verbosity, the group of the symbols
    that are not modules is logged (at debug level) only when the verbosity
    is at least 2. *)
Theorem error_report_groups verbosity errors :
  ∃ imports symbols,
    (Sorted String.le imports ∧ NoDup imports ∧
     ∀ name, name ∈ imports ↔ (ERROR_IMPORT, name) ∈ errors) ∧
    (Sorted String.le symbols ∧ NoDup symbols ∧
     ∀ name, name ∈ symbols ↔ (ERROR_SYMBOL, name) ∈ errors) ∧
    error_report verbosity errors =
      group_lines WARNING "Modules that could not be imported:" imports ++
      (if bool_decide (2 ≤ verbosity)
       then group_lines DEBUG "Symbols that could not be imported as modules:" symbols
       else []).
Proof.
  exists (sorted (names_of ERROR_IMPORT errors)),
         (sorted (names_of ERROR_SYMBOL errors)).
  split; [|split].
  - split; [apply Sorted_sorted|]. split; [apply NoDup_sorted|].
    intros name. by rewrite elem_of_sorted, elem_of_names_of.
  - split; [apply Sorted_sorted|]. split; [apply NoDup_sorted|].
    intros name. by rewrite elem_of_sorted, elem_of_names_of.
  - unfold error_report, reports. case_bool_decide; cbn -[report_entry];
      rewrite !report_entry_group; by rewrite ?app_nil_r.
Qed.

(** ** Facts about the command *)

Section GendepsFacts.

Variable find_dependencies : string → nat → bool → list string * list (error_kind * string).
Variable relfile : string → list string → option ident.
Variable find_roots : list string → list string → list string.
Variable iter_pyfiles : list string → list string → bool → list string.
Variable realpath : string → string.
Variable path_exists : string → bool.

Local Abbreviation check_args := (check_args realpath path_exists).
Local Abbreviation gendeps_with fd :=
  (gendeps fd relfile find_roots iter_pyfiles realpath path_exists).

Lemma check_args_missing args :
  (∃ arg, arg ∈ args ∧ path_exists (realpath arg) = false) →
  ∃ bad, bad ∈ args ∧ path_exists (realpath bad) = false ∧
         check_args args = Some ("Filename '" +:+ realpath bad +:+ "' does not exist.").
Proof.
  induction args as [|arg args IH]; intros (a & Ha & Hmiss).
  - by apply elem_of_nil in Ha.
  - simpl. destruct (path_exists (realpath arg)) eqn:Harg.
    + destruct IH as (bad & Hbad & Hno & Hmsg).
      { exists a. split; [|done]. apply elem_of_cons in Ha as [->|]; [congruence|done]. }
      exists bad. split; [by apply elem_of_cons; right|done].
    + exists arg. split; [by apply elem_of_cons; left|done].
Qed.

Lemma check_args_present args :
  (∀ arg, arg ∈ args → path_exists (realpath arg) = true) → check_args args = None.
Proof.
  induction args as [|arg args IH]; intros Hall; [done|]. simpl.
  rewrite (Hall arg) by (apply elem_of_cons; by left).
  apply IH. intros a Ha. apply Hall, elem_of_cons. by right.
Qed.

Lemma error_report_nil verbosity : error_report verbosity [] = [].
Proof. unfold error_report, reports. by case_bool_decide. Qed.

Section Forget.

Variable opts : options.
Variable inroots : gset string.

Local Abbreviation forget_acc :=
  (λ acc : state * gset string, (forget_errors acc.1, acc.2)).

Lemma process_file_forget fn st nf :
  process_file (no_errors find_dependencies) relfile opts inroots fn
    (forget_errors st, nf)
  = result_map forget_acc (process_file find_dependencies relfile opts inroots fn (st, nf)).
Proof.
  unfold process_file, no_errors. simpl.
  case_bool_decide; [done|].
  destruct (find_dependencies fn (verbose opts) (do_pragmas opts)) as [files errors].
  simpl. destruct (relfile (Path.collapse fn) (ignores opts)) as [from_|]; [|done].
  destruct (internal opts && bool_decide (from_.1 ∉ inroots)); [done|].
  by destruct (add_dependencies relfile opts inroots from_ files _).
Qed.

Lemma process_files_forget fiter st nf :
  process_files (no_errors find_dependencies) relfile opts inroots fiter
    (forget_errors st, nf)
  = result_map forget_acc
      (process_files find_dependencies relfile opts inroots fiter (st, nf)).
Proof.
  revert st nf. induction fiter as [|fn fiter IH]; intros st nf; [done|].
  simpl. rewrite process_file_forget.
  destruct (process_file find_dependencies relfile opts inroots fn (st, nf))
    as [[st1 nf1]|[st1 nf1]]; simpl; [apply IH|done].
Qed.

Lemma rounds_forget fuel fiter st :
  rounds (no_errors find_dependencies) relfile opts inroots fuel fiter
    (forget_errors st)
  = result_map forget_errors <$>
      rounds find_dependencies relfile opts inroots fuel fiter st.
Proof.
  revert fiter st. induction fuel as [|fuel IH]; intros fiter st; [done|].
  simpl. unfold round. rewrite process_files_forget.
  destruct (process_files find_dependencies relfile opts inroots fiter (st, ∅))
    as [[st1 nf1]|[st1 nf1]]; simpl; [|done].
  destruct (next_fiter opts nf1); [apply IH|done].
Qed.

End Forget.

Lemma gendeps_forget fuel opts args :
  gendeps_with (no_errors find_dependencies) fuel opts args
  = forget_outcome <$> gendeps_with find_dependencies fuel opts args.
Proof.
  unfold gendeps. destruct (print_roots opts); [done|].
  destruct (check_args _); [done|].
  destruct (internal opts && _); [done|].
  change initial_state with (forget_errors initial_state) at 1.
  rewrite rounds_forget.
  destruct (rounds find_dependencies _ _ _ _ _ _) as [[st|st]|]; simpl; [|done|done].
  rewrite error_report_nil. by destruct (found_roots (allfiles st)).
Qed.

(** Claim C9. In a run of the builder (the option [--print-roots], which
    only prints the roots of the arguments, is not set): when an input
    path does not exist, the command ends in [parser.error] with the message
    that names such a path; when all exist, [--internal] is set and no root
    is found, it ends in [parser.error] with the message about the roots;
    both whatever the bound on the rounds and the extractor, that is,
    before the loop. The errors that the extractor reports change nothing
    but [allerrors] and the report: the command run with an extractor that
    reports the same files and no error ends the same way. *)
Theorem configuration_errors_abort opts args :
  print_roots opts = false →
  ((∃ arg, arg ∈ default_args args ∧ path_exists (realpath arg) = false) →
   ∃ bad, bad ∈ default_args args ∧ path_exists (realpath bad) = false ∧
     ∀ fuel, gendeps_with find_dependencies fuel opts args =
             Some (ParserError ("Filename '" +:+ realpath bad +:+ "' does not exist."))) ∧
  ((∀ arg, arg ∈ default_args args → path_exists (realpath arg) = true) →
   internal opts = true → find_roots (default_args args) (ignores opts) = [] →
   ∀ fuel, gendeps_with find_dependencies fuel opts args =
           Some (ParserError no_roots_msg)) ∧
  (∀ fuel, gendeps_with (no_errors find_dependencies) fuel opts args =
           forget_outcome <$> gendeps_with find_dependencies fuel opts args).
Proof.
  intros Hpr. split_and!.
  - intros Hmiss. destruct (check_args_missing _ Hmiss) as (bad & Hbad & Hno & Hmsg).
    exists bad. split_and!; [done..|]. intros fuel. unfold gendeps.
    by rewrite Hpr, Hmsg.
  - intros Hall Hint Hroots fuel. unfold gendeps.
    rewrite Hpr, (check_args_present _ Hall), Hint, Hroots. done.
  - intros fuel. apply gendeps_forget.
Qed.

End GendepsFacts.

(** ** More facts about the builder *)

Lemma dd_add_idemp k x d : dd_add k x (dd_add k x d) = dd_add k x d.
Proof.
  apply map_eq. intros k'. destruct (decide (k = k')) as [->|Hne].
  - rewrite !dd_add_lookup_eq. simpl. f_equal. set_solver.
  - by rewrite !dd_add_lookup_ne.
Qed.

Section BuilderMore.

Variable find_dependencies : string → nat → bool → list string * list (error_kind * string).
Variable relfile : string → list string → option ident.
Variable opts : options.
Variable inroots : gset string.

Local Abbreviation add_dependency := (add_dependency relfile opts inroots).
Local Abbreviation add_dependencies := (add_dependencies relfile opts inroots).
Local Abbreviation process_file := (process_file find_dependencies relfile opts inroots).
Local Abbreviation process_files := (process_files find_dependencies relfile opts inroots).
Local Abbreviation round := (round find_dependencies relfile opts inroots).
Local Abbreviation rounds := (rounds find_dependencies relfile opts inroots).
Local Abbreviation next_fiter := (next_fiter opts).
Local Abbreviation in_scope := (in_scope relfile opts inroots).
Local Abbreviation followed := (followed relfile opts inroots).
Local Abbreviation dependency_of := (dependency_of find_dependencies relfile opts inroots).
Local Abbreviation edge_of := (edge_of find_dependencies relfile opts inroots).
Local Abbreviation sound_inv := (sound_inv find_dependencies relfile opts inroots).
Local Abbreviation complete_inv := (complete_inv find_dependencies relfile opts inroots).
Local Abbreviation internal_inv := (internal_inv inroots).
Local Abbreviation sound_map := (sound_map find_dependencies relfile opts inroots).
Local Abbreviation pending := (pending find_dependencies relfile opts inroots).
Local Abbreviation reached := (reached find_dependencies relfile opts inroots).
Local Abbreviation errors_of := (errors_of find_dependencies opts).
Local Abbreviation total_on_targets := (total_on_targets find_dependencies relfile opts).
Local Abbreviation deps_of fn := (find_dependencies fn (verbose opts) (do_pragmas opts)).1.
Local Abbreviation target_of dfn := (to_target (relfile (Path.collapse dfn) (ignores opts))).

(** *** Runs that end normally *)

Lemma add_dependency_Ok from_ dfn acc acc' :
  add_dependency from_ dfn acc = Ok acc' →
  (acc' = acc ∧ ¬ followed dfn) ∨
  (acc' = (dd_add from_ (target_of dfn) acc.1, {[dfn]} ∪ acc.2) ∧ followed dfn).
Proof.
  unfold add_dependency, followed.
  destruct (internal opts).
  - destruct (relfile (Path.collapse dfn) (ignores opts)) as [t|]; [|done].
    case_bool_decide as Hroot; intros [= <-].
    + left. split; [done|]. intros Hf. destruct (Hf eq_refl) as (t' & [= <-] & Hin).
      done.
    + right. split; [done|]. intros _. by exists t.
  - intros [= <-]. right. split; [done|]. by intros.
Qed.

Lemma add_dependencies_ok_ind
    (J : gmap ident (gset target) * gset string → Prop) (P : string → Prop) from_ :
  (∀ dfn acc acc', P dfn → J acc → add_dependency from_ dfn acc = Ok acc' → J acc') →
  ∀ files acc acc', Forall P files → J acc →
    add_dependencies from_ files acc = Ok acc' → J acc'.
Proof.
  intros Hstep files. induction files as [|dfn files IH]; intros acc acc' HP HJ.
  - by intros [= <-].
  - apply Forall_cons in HP as [Hdfn HP]. simpl.
    destruct (add_dependency from_ dfn acc) as [acc1|acc1] eqn:Hone; [|done].
    apply IH; [done|]. by eapply Hstep.
Qed.

Lemma process_files_ok_ind (J : state * gset string → Prop) :
  (∀ fn acc acc', J acc → process_file fn acc = Ok acc' → J acc') →
  ∀ fiter acc acc', J acc → process_files fiter acc = Ok acc' → J acc'.
Proof.
  intros Hstep fiter. induction fiter as [|fn fiter IH]; intros acc acc' HJ.
  - by intros [= <-].
  - simpl. destruct (process_file fn acc) as [acc1|acc1] eqn:Hone; [|done].
    apply IH. by eapply Hstep.
Qed.

Lemma process_files_app l1 l2 acc :
  process_files (l1 ++ l2) acc =
  match process_files l1 acc with
  | Ok acc' => process_files l2 acc'
  | TypeError acc' => TypeError acc'
  end.
Proof.
  revert acc. induction l1 as [|fn l1 IH]; intros acc; [done|]. simpl.
  destruct (process_file fn acc); [apply IH|done].
Qed.

(** What [process_file] does to a file that was not processed before, when
    it ends normally. *)
Lemma process_file_fresh_Ok fn st nf st' nf' :
  fn ∉ processed_files st →
  process_file fn (st, nf) = Ok (st', nf') →
  processed_files st' = {[fn]} ∪ processed_files st ∧
  extracted st' = extracted st ++ [fn] ∧
  allerrors st' = allerrors st ++ (find_dependencies fn (verbose opts) (do_pragmas opts)).2 ∧
  ((allfiles st' = allfiles st ∧ nf' = nf ∧ ∀ id, ¬ in_scope fn id) ∨
   (∃ from_, in_scope fn from_ ∧
      add_dependencies from_ (deps_of fn) (dd_add from_ sentinel (allfiles st), nf)
        = Ok (allfiles st', nf'))).
Proof.
  intros Hfn. unfold process_file, in_scope.
  rewrite bool_decide_eq_false_2 by done.
  destruct (find_dependencies fn _ _) as [files errors]. simpl.
  destruct (relfile (Path.collapse fn) _) as [from_|].
  - destruct (internal opts) eqn:Hint; simpl.
    + case_bool_decide as Hroot; simpl.
      * intros [= <- <-]. simpl. split_and!; [done..|]. left. split_and!; [done..|].
        intros id [[= <-] Hin]. by apply Hroot, Hin.
      * destruct (add_dependencies _ _ _) as [r|r] eqn:Hr; [|done].
        intros [= <- <-]. simpl. split_and!; [done..|]. right. exists from_.
        split; [done|]. by destruct r.
    + destruct (add_dependencies _ _ _) as [r|r] eqn:Hr; [|done].
      intros [= <- <-]. simpl. split_and!; [done..|]. right. exists from_.
      split; [done|]. by destruct r.
  - intros [= <- <-]. simpl. split_and!; [done..|]. left. split_and!; [done..|].
    by intros id [? _].
Qed.

(** *** Repeated dependencies and repeated files *)

(** Property X1. Recording a dependency a second time changes nothing (line
    143 adds to a set, line 144 too). *)
Theorem dependency_recorded_once from_ dfn acc acc' :
  add_dependency from_ dfn acc = Ok acc' →
  add_dependency from_ dfn acc' = Ok acc' ∧
  ∀ files, add_dependencies from_ (dfn :: dfn :: files) acc
           = add_dependencies from_ (dfn :: files) acc.
Proof.
  intros Hone.
  assert (add_dependency from_ dfn acc' = Ok acc') as Htwice.
  { revert Hone. unfold add_dependency.
    destruct (internal opts).
    - destruct (relfile (Path.collapse dfn) (ignores opts)) as [t|]; [|done].
      case_bool_decide; intros [= <-]; [done|]. simpl.
      rewrite dd_add_idemp. do 2 f_equal. set_solver.
    - intros [= <-]. simpl. rewrite dd_add_idemp. do 2 f_equal. set_solver. }
  split; [done|]. intros files. simpl. by rewrite Hone, Htwice.
Qed.

Lemma process_files_all_processed l acc :
  (∀ f, f ∈ l → f ∈ processed_files acc.1) → process_files l acc = Ok acc.
Proof.
  induction l as [|fn l IH]; intros Hall; [done|]. simpl.
  rewrite process_file_skip by (apply Hall, elem_of_cons; by left).
  apply IH. intros f Hf. apply Hall, elem_of_cons. by right.
Qed.

(** Property X2. A worklist that was processed is skipped as a whole when it
    is met again: a second pass over it, or a worklist that lists its files
    twice, gives the same state and the same queued files. *)
Theorem worklist_processed_once l acc acc' :
  process_files l acc = Ok acc' →
  process_files l acc' = Ok acc' ∧ process_files (l ++ l) acc = Ok acc'.
Proof.
  intros Hrun.
  assert (process_files l acc' = Ok acc') as Hagain.
  { apply process_files_all_processed. by eapply process_files_marks. }
  split; [done|]. by rewrite process_files_app, Hrun.
Qed.

(** *** Files out of scope *)

(** Property X3. A file without identity, or in [--internal] mode with an
    identity outside the internal roots, is still handed to the extractor
    and its errors are kept; it adds no key, no edge and no queued file
    (lines 115-131). *)
Theorem out_of_scope_file_only_extracted fn st nf :
  fn ∉ processed_files st → (∀ id, ¬ in_scope fn id) →
  process_file fn (st, nf) =
  Ok (State (allfiles st)
        (allerrors st ++ (find_dependencies fn (verbose opts) (do_pragmas opts)).2)
        ({[fn]} ∪ processed_files st) (extracted st ++ [fn]), nf).
Proof.
  intros Hfn Hout. unfold process_file.
  rewrite bool_decide_eq_false_2 by done.
  destruct (find_dependencies fn _ _) as [files errors]. simpl.
  destruct (relfile (Path.collapse fn) (ignores opts)) as [from_|] eqn:Hrel; [|done].
  destruct (internal opts) eqn:Hint; simpl.
  - case_bool_decide as Hroot; [done|]. exfalso. apply (Hout from_).
    split; [done|]. by intros _.
  - exfalso. apply (Hout from_). split; [done|]. by rewrite Hint.
Qed.

(** *** The state only grows *)

Lemma extends_refl st : extends st st.
Proof. split_and!; [apply edges_le_refl|done..]. Qed.

Lemma extends_trans st1 st2 st3 : extends st1 st2 → extends st2 st3 → extends st1 st3.
Proof.
  intros (He1 & Hp1 & Ha1 & Hx1) (He2 & Hp2 & Ha2 & Hx2).
  split_and!; [by eapply edges_le_trans|by etrans..].
Qed.

Lemma process_file_extends fn acc :
  extends acc.1 (payload (process_file fn acc)).1 ∧
  acc.2 ⊆ (payload (process_file fn acc)).2.
Proof.
  destruct (decide (fn ∈ processed_files acc.1)) as [Hin|Hout].
  { rewrite process_file_skip by done. split; [apply extends_refl|done]. }
  destruct acc as [st nf].
  destruct (process_file_fresh find_dependencies relfile opts inroots fn st nf Hout)
    as (st' & nf' & -> & Hproc & Hext & Herr & Hcases). simpl.
  assert (edges_le (allfiles st) (allfiles st') ∧ nf ⊆ nf') as [Hle Hnf].
  { destruct Hcases as [(-> & -> & _) | (from_ & _ & _ & Heq)].
    - split; [apply edges_le_refl|done].
    - pose proof (add_dependencies_le relfile opts inroots from_ (deps_of fn)
                    (dd_add from_ sentinel (allfiles st), nf)) as Hle.
      split.
      + rewrite <- Heq in Hle. simpl in Hle.
        eapply edges_le_trans; [apply dd_add_le|done].
      + apply (f_equal snd) in Heq. simpl in Heq. rewrite Heq.
        apply (add_dependencies_ind relfile opts inroots
                 (λ acc', nf ⊆ acc'.2) (λ _, True) from_);
          [|by apply Forall_true|done].
        intros dfn acc' _ Hsub.
        destruct (add_dependency_payload relfile opts inroots from_ dfn acc')
          as [-> | ->]; [done|]. simpl. set_solver. }
  split; [|done]. split_and!; [done| | |].
  - rewrite Hproc. set_solver.
  - rewrite Herr. by apply prefix_app_r.
  - rewrite Hext. by apply prefix_app_r.
Qed.

Lemma round_extends fiter st : extends st (payload (round fiter st)).1.
Proof.
  apply (process_files_ind find_dependencies relfile opts inroots
           (λ acc, extends st acc.1) (λ _, True));
    [|by apply Forall_true|apply extends_refl].
  intros fn acc _ Hext. eapply extends_trans; [done|].
  apply process_file_extends.
Qed.

(** Property X4. Whatever the worklist and however the run ends, the state
    it leaves extends the state it started from (the loop only adds, lines
    115-144). *)
Theorem run_is_append_only fuel fiter st r :
  rounds fuel fiter st = Some r → extends st (payload r).
Proof.
  apply (rounds_ind find_dependencies relfile opts inroots (λ st', extends st st'));
    [|apply extends_refl].
  intros fiter' st' Hext. eapply extends_trans; [done|]. apply round_extends.
Qed.

(** *** The errors that are kept *)

Lemma errors_of_snoc l fn :
  errors_of (l ++ [fn]) =
  errors_of l ++ (find_dependencies fn (verbose opts) (do_pragmas opts)).2.
Proof.
  unfold errors_of. rewrite fmap_app, concat_app. simpl. by rewrite app_nil_r.
Qed.

Lemma process_file_errors fn acc :
  allerrors acc.1 = errors_of (extracted acc.1) →
  allerrors (payload (process_file fn acc)).1
  = errors_of (extracted (payload (process_file fn acc)).1).
Proof.
  intros Hinv. destruct (decide (fn ∈ processed_files acc.1)) as [Hin|Hout].
  { by rewrite process_file_skip. }
  destruct acc as [st nf].
  destruct (process_file_fresh find_dependencies relfile opts inroots fn st nf Hout)
    as (st' & nf' & -> & _ & Hext & Herr & _). simpl in *.
  by rewrite Herr, Hext, errors_of_snoc, Hinv.
Qed.

Lemma rounds_errors fuel fiter st r :
  allerrors st = errors_of (extracted st) →
  rounds fuel fiter st = Some r →
  allerrors (payload r) = errors_of (extracted (payload r)).
Proof.
  apply (rounds_ind find_dependencies relfile opts inroots
           (λ st, allerrors st = errors_of (extracted st))).
  intros fiter' st' Hinv.
  apply (process_files_ind find_dependencies relfile opts inroots
           (λ acc, allerrors acc.1 = errors_of (extracted acc.1)) (λ _, True));
    [|by apply Forall_true|done].
  intros fn acc _. apply process_file_errors.
Qed.

Lemma errors_of_Permutation l k : l ≡ₚ k → errors_of l ≡ₚ errors_of k.
Proof.
  intros Hperm. unfold errors_of.
  induction Hperm as [|x l k _ IH|x y l|l k m _ IH1 _ IH2]; simpl.
  - done.
  - by apply Permutation_app_head.
  - rewrite !app_assoc. apply Permutation_app_tail, Permutation_app_comm.
  - by etrans.
Qed.

(** Claim C5. From a state in which the extractor was called once on each
    processed file and [allerrors] holds what it returned: a file of the
    processed set is skipped without a call and the state stays as it is; a
    file that is not in it is handed to [find_dependencies] once, and the
    errors that the call returns are appended to [allerrors] once. After
    any run the extractor has been called exactly once on every processed
    file and never on another file, and [allerrors] holds, up to the order
    of the files, the errors that [find_dependencies] returns for the
    processed files, those of each file once; when the run completes, every
    file of the worklist was extracted exactly once. *)
Theorem extractor_called_once st :
  trace_inv st → allerrors st = errors_of (extracted st) →
  (∀ fn nf, fn ∈ processed_files st → process_file fn (st, nf) = Ok (st, nf)) ∧
  (∀ fn nf, fn ∉ processed_files st →
     extracted (payload (process_file fn (st, nf))).1 = extracted st ++ [fn] ∧
     allerrors (payload (process_file fn (st, nf))).1
     = allerrors st ++ (find_dependencies fn (verbose opts) (do_pragmas opts)).2) ∧
  (∀ fuel fiter r, rounds fuel fiter st = Some r →
     (∀ f, calls f (payload r) =
           if bool_decide (f ∈ processed_files (payload r)) then 1 else 0) ∧
     allerrors (payload r) = errors_of (extracted (payload r)) ∧
     allerrors (payload r) ≡ₚ errors_of (elements (processed_files (payload r))) ∧
     (∀ st', r = Ok st' → ∀ f, f ∈ fiter → calls f st' = 1)).
Proof.
  intros Hinv Herrs. split_and!.
  - intros fn nf Hfn. by apply process_file_skip.
  - intros fn nf Hout.
    destruct (process_file_fresh find_dependencies relfile opts inroots fn st nf Hout)
      as (st' & nf' & -> & _ & Hext & Herr & _).
    done.
  - intros fuel fiter r Hrun.
    assert (trace_inv (payload r)) as Hinv'.
    { apply (rounds_ind find_dependencies relfile opts inroots trace_inv
               (round_trace find_dependencies relfile opts inroots)
               fuel fiter st r); done. }
    assert (allerrors (payload r) = errors_of (extracted (payload r))) as Herrs'.
    { by apply (rounds_errors fuel fiter st r). }
    split_and!.
    + intros f. by apply trace_inv_calls.
    + done.
    + rewrite Herrs'. apply errors_of_Permutation.
      destruct Hinv' as [Hnodup Hsame].
      apply NoDup_Permutation; [done|apply NoDup_elements|].
      intros f. by rewrite Hsame, elem_of_elements.
    + intros st' -> f Hf. rewrite trace_inv_calls by done.
      rewrite bool_decide_eq_true_2; [done|].
      by eapply rounds_marks.
Qed.

(** Property X5. After a run from the empty state, [allerrors] is the list
    of the errors of the extracted files, file after file in the order of
    extraction (line 117); nothing else adds to it and nothing is removed. *)
Theorem errors_are_collected fuel fiter r :
  rounds fuel fiter initial_state = Some r →
  allerrors (payload r) = errors_of (extracted (payload r)).
Proof.
  apply (rounds_ind find_dependencies relfile opts inroots
           (λ st, allerrors st = errors_of (extracted st))); [|done].
  intros fiter' st Hinv.
  apply (process_files_ind find_dependencies relfile opts inroots
           (λ acc, allerrors acc.1 = errors_of (extracted acc.1)) (λ _, True));
    [|by apply Forall_true|done].
  intros fn acc _. apply process_file_errors.
Qed.

(** *** Without follow mode *)

Lemma process_files_processed_sub fiter acc :
  processed_files (payload (process_files fiter acc)).1
  ⊆ processed_files acc.1 ∪ list_to_set fiter.
Proof.
  apply (process_files_ind find_dependencies relfile opts inroots
           (λ acc', processed_files acc'.1 ⊆ processed_files acc.1 ∪ list_to_set fiter)
           (λ f, f ∈ fiter)).
  - intros fn acc' Hfn Hsub.
    destruct (decide (fn ∈ processed_files acc'.1)) as [Hin|Hout].
    { by rewrite process_file_skip. }
    destruct acc' as [st nf].
    destruct (process_file_fresh find_dependencies relfile opts inroots fn st nf Hout) as (st' & nf' & -> & Hst' & _).
    simpl in *. rewrite Hst'. set_solver.
  - by apply Forall_forall.
  - set_solver.
Qed.

(** Property X6. Without [--follow] the loop makes one round whatever is
    queued: only files of the worklist are processed, and all of them when
    the round ends normally (line 147). *)
Theorem single_round_without_follow fuel fiter st :
  follow opts = false →
  ∃ r, rounds (S fuel) fiter st = Some r ∧
       processed_files (payload r) ⊆ processed_files st ∪ list_to_set fiter ∧
       (is_ok r = true →
        processed_files (payload r) = processed_files st ∪ list_to_set fiter).
Proof.
  intros Hfollow. simpl. unfold next_fiter. rewrite Hfollow. simpl.
  pose proof (process_files_processed_sub fiter (st, ∅)) as Hsub.
  pose proof (process_files_processed_mono find_dependencies relfile opts inroots
                fiter (st, ∅)) as Hmono.
  unfold round.
  destruct (process_files fiter (st, ∅)) as [acc|acc] eqn:Hround; simpl in *;
    eexists; (split; [done|]); (split; [done|]); [|done].
  intros _. apply set_eq. intros f. split; [apply Hsub|].
  intros [Hold|Hnew%elem_of_list_to_set]%elem_of_union; [by apply Hmono|].
  by eapply process_files_marks.
Qed.

(** *** Only internal edges in [--internal] mode *)

Lemma internal_inv_add k x d :
  k.1 ∈ inroots → (x = sentinel ∨ ∃ i, x = pair_target i ∧ i.1 ∈ inroots) →
  internal_inv d → internal_inv (dd_add k x d).
Proof.
  intros Hk Hx Hd k' files. destruct (decide (k = k')) as [->|Hne].
  - destruct (d !! k') as [files0|] eqn:Hk';
      rewrite dd_add_lookup_eq; unfold ident in *; rewrite Hk'; simpl;
      intros [= <-]; (split; [done|]);
      intros t [->%elem_of_singleton|Hold]%elem_of_union; try done.
    by apply (proj2 (Hd _ _ Hk')).
  - rewrite dd_add_lookup_ne by done. apply Hd.
Qed.

Lemma add_dependency_internal_inv from_ dfn acc :
  internal opts = true → from_.1 ∈ inroots →
  internal_inv acc.1 → internal_inv (payload (add_dependency from_ dfn acc)).1.
Proof.
  intros Hint Hfrom Hinv. unfold add_dependency. rewrite Hint.
  destruct (relfile (Path.collapse dfn) (ignores opts)) as [t|]; [|done].
  case_bool_decide as Hroot; [done|]. simpl.
  apply internal_inv_add; [done| |done]. right. by exists t.
Qed.

Lemma process_file_internal_inv fn acc :
  internal opts = true →
  internal_inv (allfiles acc.1) →
  internal_inv (allfiles (payload (process_file fn acc)).1).
Proof.
  intros Hint Hinv. destruct (decide (fn ∈ processed_files acc.1)) as [Hin|Hout].
  { by rewrite process_file_skip. }
  destruct acc as [st nf].
  destruct (process_file_fresh find_dependencies relfile opts inroots fn st nf Hout)
    as (st' & nf' & -> & _ & _ & _ & [(Hsame & _) | (from_ & _ & Hfrom & Heq)]);
    simpl in *; [by rewrite Hsame|].
  apply (f_equal fst) in Heq. simpl in Heq. rewrite Heq.
  specialize (Hfrom Hint).
  apply (add_dependencies_ind relfile opts inroots
           (λ acc', internal_inv acc'.1) (λ _, True) from_);
    [|by apply Forall_true|].
  - intros dfn acc' _. by apply add_dependency_internal_inv.
  - simpl. apply internal_inv_add; [done|by left|done].
Qed.

Lemma internal_inv_empty : internal_inv ∅.
Proof. intros k files Hk. by rewrite lookup_empty in Hk. Qed.

Lemma rounds_internal_inv fuel fiter st r :
  internal opts = true → internal_inv (allfiles st) →
  rounds fuel fiter st = Some r → internal_inv (allfiles (payload r)).
Proof.
  intros Hint Hinv.
  apply (rounds_ind find_dependencies relfile opts inroots
           (λ st', internal_inv (allfiles st'))); [|done].
  intros fiter' st' Hinv'.
  apply (process_files_ind find_dependencies relfile opts inroots
           (λ acc, internal_inv (allfiles acc.1)) (λ _, True));
    [|by apply Forall_true|done].
  intros fn acc _. by apply process_file_internal_inv.
Qed.

(** Property X7. In [--internal] mode, from a mapping whose keys and pairs
    lie under the internal roots, every run leaves such a mapping: no key
    and no recorded target has a root outside [inroots], and [None] is never
    recorded (lines 130 and 141). *)
Theorem internal_mode_records_internal_only fuel fiter st r :
  internal opts = true → internal_inv (allfiles st) →
  rounds fuel fiter st = Some r → internal_inv (allfiles (payload r)).
Proof. apply rounds_internal_inv. Qed.

(** *** Every edge comes from a dependency *)

Lemma edge_of_mono S S' k t : S ⊆ S' → edge_of S k t → edge_of S' k t.
Proof.
  intros Hsub (fn & dfn & Hfn & Hrest). exists fn, dfn. split; [by apply Hsub|done].
Qed.

Lemma sound_map_mono S S' d : S ⊆ S' → sound_map S d → sound_map S' d.
Proof.
  intros Hsub Hd k files Hk. destruct (Hd k files Hk) as [(fn & Hfn & Hscope) Hall].
  split; [exists fn; split; [by apply Hsub|done]|].
  intros t Ht. destruct (Hall t Ht) as [->|Hedge]; [by left|right].
  by eapply edge_of_mono.
Qed.

Lemma sound_map_add S k x d :
  (∃ fn, fn ∈ S ∧ in_scope fn k) → (x = sentinel ∨ edge_of S k x) →
  sound_map S d → sound_map S (dd_add k x d).
Proof.
  intros Hk Hx Hd k' files. destruct (decide (k = k')) as [->|Hne].
  - destruct (d !! k') as [files0|] eqn:Hk';
      rewrite dd_add_lookup_eq; unfold ident in *; rewrite Hk'; simpl;
      intros [= <-]; (split; [done|]);
      intros t [->%elem_of_singleton|Hold]%elem_of_union; try done.
    by apply (proj2 (Hd _ _ Hk')).
  - rewrite dd_add_lookup_ne by done. apply Hd.
Qed.

Lemma process_file_sound fn acc :
  sound_inv acc.1 → sound_inv (payload (process_file fn acc)).1.
Proof.
  intros Hinv. destruct (decide (fn ∈ processed_files acc.1)) as [Hin|Hout].
  { by rewrite process_file_skip. }
  destruct acc as [st nf].
  destruct (process_file_fresh find_dependencies relfile opts inroots fn st nf Hout)
    as (st' & nf' & -> & Hproc & _ & _ & Hcases). simpl in *.
  assert (processed_files st ⊆ processed_files st') as Hsub
    by (rewrite Hproc; set_solver).
  change (sound_map (processed_files st') (allfiles st')).
  destruct Hcases as [(-> & _) | (from_ & Hfrom & Hin & Heq)].
  { by apply (sound_map_mono (processed_files st)). }
  apply (f_equal fst) in Heq. simpl in Heq. rewrite Heq.
  assert (∃ fn0, fn0 ∈ processed_files st' ∧ in_scope fn0 from_) as Hkey.
  { exists fn. split; [rewrite Hproc; set_solver|done]. }
  apply (add_dependencies_ind relfile opts inroots
           (λ acc', sound_map (processed_files st') acc'.1)
           (λ dfn, dfn ∈ deps_of fn) from_); [|by apply Forall_forall|].
  - intros dfn acc' Hdfn Hsound.
    destruct (add_dependency_payload relfile opts inroots from_ dfn acc')
      as [-> | ->]; [done|]. simpl.
    apply sound_map_add; [done| |done]. right. exists fn, dfn.
    split_and!; [rewrite Hproc; set_solver|done..].
  - simpl. apply sound_map_add; [done|by left|].
    by apply (sound_map_mono (processed_files st)).
Qed.

(** Property X8. After a run from the empty state, however it ends: every
    key of [allfiles] is the identity of a processed file in scope, and
    every member of its set is [(None, None)] or what [relfile] gives for a
    dependency that the extractor listed for such a file (nothing else is
    ever recorded). *)
Theorem edges_come_from_dependencies fuel fiter r :
  rounds fuel fiter initial_state = Some r → sound_inv (payload r).
Proof.
  apply (rounds_ind find_dependencies relfile opts inroots sound_inv).
  - intros fiter' st Hinv.
    apply (process_files_ind find_dependencies relfile opts inroots
             (λ acc, sound_inv acc.1) (λ _, True));
      [|by apply Forall_true|done].
    intros fn acc _. apply process_file_sound.
  - intros k files Hk. simpl in Hk. by rewrite lookup_empty in Hk.
Qed.

(** *** Every followed dependency is recorded and queued *)

Lemma add_dependencies_nf_mono from_ files acc :
  acc.2 ⊆ (payload (add_dependencies from_ files acc)).2.
Proof.
  apply (add_dependencies_ind relfile opts inroots
           (λ acc', acc.2 ⊆ acc'.2) (λ _, True) from_);
    [|by apply Forall_true|done].
  intros dfn acc' _ Hsub.
  destruct (add_dependency_payload relfile opts inroots from_ dfn acc')
    as [-> | ->]; [done|]. simpl. set_solver.
Qed.

Lemma add_dependencies_Ok_records from_ files acc acc' :
  add_dependencies from_ files acc = Ok acc' →
  ∀ dfn, dfn ∈ files → followed dfn →
    (∃ targets, acc'.1 !! from_ = Some targets ∧ target_of dfn ∈ targets) ∧
    dfn ∈ acc'.2.
Proof.
  revert acc. induction files as [|d files IH]; intros acc Hrun dfn Hdfn Hfol.
  { by apply elem_of_nil in Hdfn. }
  simpl in Hrun.
  destruct (add_dependency from_ d acc) as [acc1|acc1] eqn:Hone; [|done].
  apply elem_of_cons in Hdfn as [->|Hdfn]; [|by eapply IH].
  destruct (add_dependency_Ok _ _ _ _ Hone) as [[_ Hno] | [-> _]]; [done|].
  pose proof (add_dependencies_le relfile opts inroots from_ files
                (dd_add from_ (target_of d) acc.1, {[d]} ∪ acc.2)) as Hle.
  pose proof (add_dependencies_nf_mono from_ files
                (dd_add from_ (target_of d) acc.1, {[d]} ∪ acc.2)) as Hnf.
  rewrite Hrun in Hle, Hnf. simpl in Hle, Hnf. split; [|set_solver].
  destruct (dd_add_elem from_ (target_of d) acc.1) as (targets & Hk & Hin).
  destruct (Hle _ _ Hk) as (targets' & Hk' & Hsub).
  exists targets'. split; [done|]. set_solver.
Qed.

Lemma in_scope_unique fn id id' : in_scope fn id → in_scope fn id' → id = id'.
Proof. intros [H1 _] [H2 _]. congruence. Qed.

Lemma process_file_Ok_records fn st nf st' nf' :
  fn ∉ processed_files st → process_file fn (st, nf) = Ok (st', nf') →
  ∀ id dfn, in_scope fn id → dfn ∈ deps_of fn → followed dfn →
    (∃ targets, allfiles st' !! id = Some targets ∧ target_of dfn ∈ targets) ∧
    dfn ∈ nf'.
Proof.
  intros Hout Hrun id dfn Hscope Hdfn Hfol.
  destruct (process_file_fresh_Ok _ _ _ _ _ Hout Hrun)
    as (_ & _ & _ & [(_ & _ & Hno) | (from_ & Hfrom & Hdeps)]).
  { by destruct (Hno id). }
  rewrite (in_scope_unique _ _ _ Hscope Hfrom).
  apply (add_dependencies_Ok_records _ _ _ _ Hdeps dfn Hdfn Hfol).
Qed.

(** *** Package collapse *)

Lemma add_dependencies_other_keys from_ files acc k :
  k ≠ from_ → (payload (add_dependencies from_ files acc)).1 !! k = acc.1 !! k.
Proof.
  intros Hne.
  apply (add_dependencies_ind relfile opts inroots
           (λ acc', acc'.1 !! k = acc.1 !! k) (λ _, True) from_);
    [|by apply Forall_true|done].
  intros dfn acc' _ Hsame.
  destruct (add_dependency_payload relfile opts inroots from_ dfn acc')
    as [-> | ->]; [done|]. simpl.
  by rewrite dd_add_lookup_ne.
Qed.

Lemma process_file_other_keys fn st nf id k :
  fn ∉ processed_files st → in_scope fn id → k ≠ id →
  allfiles (payload (process_file fn (st, nf))).1 !! k = allfiles st !! k.
Proof.
  intros Hout [Hrel _] Hne.
  destruct (process_file_fresh find_dependencies relfile opts inroots fn st nf Hout)
    as (st' & nf' & -> & _ & _ & _ & [(Hsame & _) | (from_ & Hfrom & _ & Heq)]);
    simpl; [by rewrite Hsame|].
  rewrite Hrel in Hfrom. injection Hfrom as <-.
  apply (f_equal fst) in Heq. simpl in Heq. rewrite Heq.
  rewrite add_dependencies_other_keys by done. simpl.
  by rewrite dd_add_lookup_ne.
Qed.

(** Claim C4. For a package directory [P] (a name that is not empty, has
    no trailing separator and is not itself called [__init__.py]), the
    initializer [P/__init__.py] and [P] collapse to the same name [P] before
    [relfile] is called. So, when [P] has the identity [id] in scope:
    - source side: processing the initializer file adds the key [id] with
      the sentinel, leaves every other key as it was, and, when it ends
      normally, files the target of every followed dependency of the
      initializer under [id];
    - destination side: a dependency on either name records the same
      target [pair_target id]; this is the member that a file in scope
      which lists [P] or [P/__init__.py] among its dependencies holds
      under its own identity after it was processed. *)
Theorem package_collapse_symmetry P id :
  P ≠ "" → Path.ends_with_sep P = false → Path.basename P ≠ Path.init_py →
  relfile P (ignores opts) = Some id → (internal opts = true → id.1 ∈ inroots) →
  (Path.collapse (Path.join P Path.init_py) = P ∧ Path.collapse P = P) ∧
  (∀ st nf, Path.join P Path.init_py ∉ processed_files st →
     (∃ files,
        allfiles (payload (process_file (Path.join P Path.init_py) (st, nf))).1 !! id
          = Some files ∧ sentinel ∈ files) ∧
     (∀ k, k ≠ id →
        allfiles (payload (process_file (Path.join P Path.init_py) (st, nf))).1 !! k
          = allfiles st !! k) ∧
     (∀ st' nf', process_file (Path.join P Path.init_py) (st, nf) = Ok (st', nf') →
        ∀ dfn, dfn ∈ deps_of (Path.join P Path.init_py) → followed dfn →
          ∃ files, allfiles st' !! id = Some files ∧ target_of dfn ∈ files)) ∧
  (∀ from_ dfn d nf, dfn = P ∨ dfn = Path.join P Path.init_py →
     add_dependency from_ dfn (d, nf)
       = Ok (dd_add from_ (pair_target id) d, {[dfn]} ∪ nf)) ∧
  (∀ fn k st nf st' nf' dfn,
     fn ∉ processed_files st → in_scope fn k →
     process_file fn (st, nf) = Ok (st', nf') →
     dfn ∈ deps_of fn → dfn = P ∨ dfn = Path.join P Path.init_py →
     ∃ files, allfiles st' !! k = Some files ∧ pair_target id ∈ files).
Proof.
  intros Hne Hend Hbase Hrel Hint.
  pose proof (PathFacts.collapse_initializer P Hne Hend) as Hinit.
  pose proof (PathFacts.collapse_other P Hbase) as Hdir.
  assert (in_scope (Path.join P Path.init_py) id) as Hsource.
  { split; [by rewrite Hinit|done]. }
  assert (∀ dfn, dfn = P ∨ dfn = Path.join P Path.init_py → in_scope dfn id)
    as Htarget.
  { intros dfn [-> | ->]; (split; [|done]); by rewrite ?Hinit, ?Hdir. }
  split_and!; [done|done| |  |].
  - intros st nf Hout. split_and!.
    + by apply process_file_records.
    + intros k Hk. by apply (process_file_other_keys _ _ _ id).
    + intros st' nf' Hrun dfn Hdfn Hfol.
      by destruct (process_file_Ok_records _ _ _ _ _ Hout Hrun id dfn).
  - intros from_ dfn d nf Hdfn. by apply add_dependency_recorded, Htarget.
  - intros fn k st nf st' nf' dfn Hout Hscope Hrun Hdfn Hwhich.
    destruct (Htarget dfn Hwhich) as [Hto Hin].
    assert (followed dfn) as Hfol by (intros Hi; exists id; auto).
    destruct (process_file_Ok_records _ _ _ _ _ Hout Hrun k dfn Hscope Hdfn Hfol)
      as [(files & Hk & Hmem) _].
    exists files. split; [done|]. by rewrite Hto in Hmem.
Qed.

Lemma process_file_complete fn acc acc' :
  complete_inv acc.1 → process_file fn acc = Ok acc' → complete_inv acc'.1.
Proof.
  intros Hinv Hrun. destruct (decide (fn ∈ processed_files acc.1)) as [Hin|Hout].
  { rewrite process_file_skip in Hrun by done. by injection Hrun as <-. }
  destruct acc as [st nf], acc' as [st' nf']. simpl in *.
  destruct (process_file_fresh_Ok _ _ _ _ _ Hout Hrun) as (Hproc & _).
  pose proof (process_file_extends fn (st, nf)) as [(Hle & _) _].
  rewrite Hrun in Hle. simpl in Hle.
  intros fn' id dfn Hfn' Hscope Hdfn Hfol. rewrite Hproc in Hfn'.
  apply elem_of_union in Hfn' as [->%elem_of_singleton|Hold].
  - by apply (process_file_Ok_records fn st nf st' nf' Hout Hrun).
  - destruct (Hinv fn' id dfn Hold Hscope Hdfn Hfol) as (targets & Hk & Hin).
    destruct (Hle _ _ Hk) as (targets' & Hk' & Hsub).
    exists targets'. split; [done|]. set_solver.
Qed.

Lemma rounds_Ok_ind (J : state → Prop) :
  (∀ fn acc acc', J acc.1 → process_file fn acc = Ok acc' → J acc'.1) →
  ∀ fuel fiter st st', J st → rounds fuel fiter st = Some (Ok st') → J st'.
Proof.
  intros Hstep fuel. induction fuel as [|fuel IH]; intros fiter st st' HJ; [done|].
  simpl. unfold round.
  destruct (process_files fiter (st, ∅)) as [acc|acc] eqn:Hround; [|done].
  assert (J acc.1) as HJ'.
  { by apply (process_files_ok_ind (λ a, J a.1) Hstep fiter (st, ∅) acc). }
  destruct (next_fiter acc.2); [by apply IH|]. by intros [= <-].
Qed.

(** Property X9. After a run from the empty state that ends normally: for
    every processed file in scope and every dependency the extractor listed
    for it that is followed (any dependency without [--internal]; with it,
    one whose identity lies under an internal root), the target that
    [relfile] gives is a member of the set of the file's identity. *)
Theorem followed_dependencies_are_recorded fuel fiter st' :
  rounds fuel fiter initial_state = Some (Ok st') → complete_inv st'.
Proof.
  apply (rounds_Ok_ind complete_inv); [by apply process_file_complete|].
  intros fn id dfn Hfn. simpl in Hfn. set_solver.
Qed.

(** *** What follow mode reaches *)

Lemma dependency_of_mono S S' d : S ⊆ S' → dependency_of S d → dependency_of S' d.
Proof.
  intros Hsub (fn & id & Hfn & Hrest). exists fn, id. split; [by apply Hsub|done].
Qed.

Lemma process_file_Ok_nf_mono fn acc acc' :
  process_file fn acc = Ok acc' →
  processed_files acc.1 ⊆ processed_files acc'.1 ∧ acc.2 ⊆ acc'.2.
Proof.
  intros Hrun. pose proof (process_file_extends fn acc) as [(_ & Hsub & _) Hnf].
  by rewrite Hrun in Hsub, Hnf.
Qed.

Lemma process_file_pending w fn acc acc' :
  pending acc.1 w acc.2 → process_file fn acc = Ok acc' → pending acc'.1 w acc'.2.
Proof.
  intros Hinv Hrun. destruct (decide (fn ∈ processed_files acc.1)) as [Hin|Hout].
  { rewrite process_file_skip in Hrun by done. by injection Hrun as <-. }
  destruct (process_file_Ok_nf_mono _ _ _ Hrun) as [Hsub Hnf].
  destruct acc as [st nf], acc' as [st' nf']. simpl in *.
  destruct (process_file_fresh_Ok _ _ _ _ _ Hout Hrun) as (Hproc & _).
  intros d (fn0 & id & Hfn0 & Hscope & Hd) Hfol. rewrite Hproc in Hfn0.
  apply elem_of_union in Hfn0 as [->%elem_of_singleton|Hold].
  - right; right.
    by apply (process_file_Ok_records fn st nf st' nf' Hout Hrun id d).
  - destruct (Hinv d) as [Hp | [Hw | Hq]]; [by exists fn0, id|done|..].
    + left. by apply Hsub.
    + by right; left.
    + right; right. by apply Hnf.
Qed.

Lemma rounds_closure fuel fiter st st' :
  follow opts = true →
  pending st (list_to_set fiter) ∅ →
  rounds fuel fiter st = Some (Ok st') →
  ∀ d, dependency_of (processed_files st') d → followed d → d ∈ processed_files st'.
Proof.
  intros Hfollow. revert fiter st.
  induction fuel as [|fuel IH]; intros fiter st Hinv; [done|].
  simpl. unfold round.
  destruct (process_files fiter (st, ∅)) as [acc|acc] eqn:Hround; [|done].
  assert (pending acc.1 (list_to_set fiter) acc.2) as Hpend.
  { apply (process_files_ok_ind (λ a, pending a.1 (list_to_set fiter) a.2)
             (process_file_pending (list_to_set fiter)) fiter (st, ∅) acc Hinv Hround). }
  assert (pending acc.1 ∅ acc.2) as Hpend'.
  { intros d Hd Hfol. destruct (Hpend d Hd Hfol) as [Hp | [Hw%elem_of_list_to_set | Hq]];
      [by left| |by right; right].
    left. by apply (process_files_marks find_dependencies relfile opts inroots
                      fiter (st, ∅) acc Hround). }
  unfold next_fiter. rewrite Hfollow. simpl. case_bool_decide as Hnf; simpl.
  - intros [= <-] d Hd Hfol.
    destruct (Hpend' d Hd Hfol) as [Hp | [Hw | Hq]]; [done|set_solver..].
  - apply IH. intros d Hd Hfol.
    destruct (Hpend' d Hd Hfol) as [Hp | [Hw | Hq]]; [by left|set_solver|].
    right; left. by apply elem_of_list_to_set, elem_of_sorted.
Qed.

(** Property X10. Fixed point of follow mode: after a run with [--follow]
    from the empty state that ends normally, every followed dependency of a
    processed file in scope is itself a processed file. *)
Theorem follow_mode_reaches_closure fuel fiter st' :
  follow opts = true →
  rounds fuel fiter initial_state = Some (Ok st') →
  ∀ d, dependency_of (processed_files st') d → followed d → d ∈ processed_files st'.
Proof.
  intros Hfollow. apply rounds_closure; [done|].
  intros d (fn & id & Hfn & _). simpl in Hfn. set_solver.
Qed.

(** *** Where the processed files come from *)

Lemma process_file_newfiles_scope fn acc d :
  d ∈ (payload (process_file fn acc)).2 →
  d ∈ acc.2 ∨ ((∃ id, in_scope fn id) ∧ d ∈ deps_of fn).
Proof.
  destruct (decide (fn ∈ processed_files acc.1)) as [Hin|Hout].
  { rewrite process_file_skip by done. by left. }
  destruct acc as [st nf].
  destruct (process_file_fresh find_dependencies relfile opts inroots fn st nf Hout)
    as (st' & nf' & -> & _ & _ & _ & [(_ & -> & _) | (from_ & Hfrom & Hin & Heq)]);
    simpl; [by left|].
  apply (f_equal snd) in Heq. simpl in Heq. rewrite Heq. intros Hd.
  apply (add_dependencies_newfiles find_dependencies relfile opts inroots from_ _ (_, nf)) in Hd.
  simpl in Hd. apply elem_of_union in Hd as [Hold|Hnew%elem_of_list_to_set];
    [by left|]. right. split; [|done]. exists from_. by split.
Qed.

Lemma process_file_reached w fn acc :
  fn ∈ w ∨ dependency_of (processed_files acc.1) fn →
  reached w acc → reached w (payload (process_file fn acc)).
Proof.
  intros Hfn [Hproc Hnf].
  pose proof (process_file_processed_mono find_dependencies relfile opts inroots
                fn acc) as Hsub.
  pose proof (process_file_marks find_dependencies relfile opts inroots fn acc)
    as Hmark.
  split.
  - intros f Hf. destruct (decide (f = fn)) as [->|Hne].
    + destruct Hfn as [?|Hdep]; [by left|right]. by eapply dependency_of_mono.
    + assert (f ∈ processed_files acc.1) as Hold.
      { destruct (decide (fn ∈ processed_files acc.1)) as [Hin|Hout].
        - by rewrite process_file_skip in Hf.
        - destruct acc as [st nf].
          destruct (process_file_fresh find_dependencies relfile opts inroots
                      fn st nf Hout) as (st' & nf' & Heq & Hst' & _).
          rewrite Heq in Hf. simpl in *. rewrite Hst' in Hf. set_solver. }
      destruct (Hproc f Hold) as [?|Hdep]; [by left|right].
      by eapply dependency_of_mono.
  - intros d Hd. apply process_file_newfiles_scope in Hd
      as [Hold | [[id Hscope] Hdep]].
    + eapply dependency_of_mono; [done|]. by apply Hnf.
    + by exists fn, id.
Qed.

Lemma rounds_reached w fuel fiter st r :
  (∀ f, f ∈ fiter → f ∈ w ∨ dependency_of (processed_files st) f) →
  reached w (st, ∅) → rounds fuel fiter st = Some r →
  ∀ f, f ∈ processed_files (payload r) →
    f ∈ w ∨ dependency_of (processed_files (payload r)) f.
Proof.
  revert fiter st. induction fuel as [|fuel IH]; intros fiter st Hfiter Hinv; [done|].
  simpl.
  assert (reached w (payload (round fiter st))
          ∧ processed_files st ⊆ processed_files (payload (round fiter st)).1)
    as [[Hproc Hnf] Hsub].
  { apply (process_files_ind find_dependencies relfile opts inroots
             (λ acc, reached w acc ∧ processed_files st ⊆ processed_files acc.1)
             (λ f, f ∈ w ∨ dependency_of (processed_files st) f));
      [|by apply Forall_forall|done].
    intros fn acc Hfn [Hacc Hsub]. split.
    - apply process_file_reached; [|done].
      destruct Hfn as [?|Hdep]; [by left|right]. by eapply dependency_of_mono.
    - etrans; [done|].
      apply (process_file_processed_mono find_dependencies relfile opts inroots). }
  destruct (round fiter st) as [acc|acc]; simpl in *.
  - destruct (next_fiter acc.2) as [fiter'|] eqn:Hnext.
    + apply next_fiter_Some in Hnext as (_ & _ & ->).
      apply IH; [|split; [done|set_solver]].
      intros f Hf%elem_of_sorted. right. by apply Hnf.
    + by intros [= <-].
  - by intros [= <-].
Qed.

(** Property X11. After a run from the empty state, however it ends, every
    processed file is a file of the first worklist or a dependency that the
    extractor listed for a processed file in scope: the loop never reads
    another file. *)
Theorem processed_files_are_reached fuel fiter r :
  rounds fuel fiter initial_state = Some r →
  ∀ f, f ∈ processed_files (payload r) →
    f ∈ fiter ∨ dependency_of (processed_files (payload r)) f.
Proof.
  intros Hrun f Hf.
  destruct (rounds_reached (list_to_set fiter) fuel fiter initial_state r)
    with (f := f) as [Hw%elem_of_list_to_set|Hdep]; [| |done|done|by left|by right].
  - intros f' Hf'. left. by apply elem_of_list_to_set.
  - split; intros x Hx; simpl in Hx; set_solver.
Qed.

(** *** Runs that never raise *)

Lemma none_free_empty : none_free ∅.
Proof. intros k files Hk. by rewrite lookup_empty in Hk. Qed.

Lemma none_free_add k x d :
  x ≠ None → none_free d → none_free (dd_add k x d).
Proof.
  intros Hx Hd k' files. destruct (decide (k = k')) as [->|Hne].
  - destruct (d !! k') as [files0|] eqn:Hk';
      rewrite dd_add_lookup_eq; unfold ident in *; rewrite Hk'; simpl;
      intros [= <-]; intros [Heq%elem_of_singleton|Hold]%elem_of_union;
      try done; by apply (Hd _ _ Hk').
  - rewrite dd_add_lookup_ne by done. apply Hd.
Qed.

Lemma add_dependencies_total from_ files acc :
  Forall (λ dfn, is_Some (relfile (Path.collapse dfn) (ignores opts))) files →
  none_free acc.1 →
  is_ok (add_dependencies from_ files acc) = true ∧
  none_free (payload (add_dependencies from_ files acc)).1.
Proof.
  revert acc. induction files as [|dfn files IH]; intros acc Hall Hfree; [done|].
  apply Forall_cons in Hall as [[t Ht] Hall]. simpl.
  unfold add_dependency. rewrite Ht. simpl.
  assert (none_free (dd_add from_ (pair_target t) acc.1)) as Hfree'
    by by apply none_free_add.
  destruct (internal opts); [case_bool_decide|]; by apply IH.
Qed.

Lemma process_file_total fn acc :
  total_on_targets → none_free (allfiles acc.1) →
  is_ok (process_file fn acc) = true ∧
  none_free (allfiles (payload (process_file fn acc)).1).
Proof.
  intros Htotal Hfree. unfold process_file. destruct acc as [st nf]. simpl in *.
  case_bool_decide; [done|].
  pose proof (Htotal fn) as Hdeps.
  destruct (find_dependencies fn (verbose opts) (do_pragmas opts)) as [files errors].
  simpl in *. destruct (relfile (Path.collapse fn) (ignores opts)) as [from_|]; [|done].
  destruct (internal opts && bool_decide (from_.1 ∉ inroots)); [done|].
  destruct (add_dependencies_total from_ files (dd_add from_ sentinel (allfiles st), nf))
    as [Hok Hnone].
  { by apply Forall_forall. }
  { by apply none_free_add. }
  by destruct (add_dependencies from_ files _).
Qed.

Lemma process_files_total fiter acc :
  total_on_targets → none_free (allfiles acc.1) →
  is_ok (process_files fiter acc) = true ∧
  none_free (allfiles (payload (process_files fiter acc)).1).
Proof.
  intros Htotal. revert acc. induction fiter as [|fn fiter IH]; intros acc Hfree;
    [done|]. simpl.
  destruct (process_file_total fn acc Htotal Hfree) as [Hok Hnone].
  destruct (process_file fn acc) as [acc1|acc1]; [|done]. by apply IH.
Qed.

Lemma found_roots_is_Some d : none_free d ↔ is_Some (found_roots d).
Proof.
  unfold found_roots. case_decide as Hd; split; done.
Qed.

Lemma rounds_total fuel fiter st r :
  total_on_targets → none_free (allfiles st) →
  rounds fuel fiter st = Some r →
  is_ok r = true ∧ none_free (allfiles (payload r)).
Proof.
  intros Htotal. revert fiter st.
  induction fuel as [|fuel IH]; intros fiter st Hfree; [done|]. simpl.
  destruct (process_files_total fiter (st, ∅) Htotal Hfree) as [Hok Hnone].
  unfold round. destruct (process_files fiter (st, ∅)) as [acc|acc]; [|done].
  simpl in *. destruct (next_fiter acc.2); [by apply IH|].
  by intros [= <-].
Qed.

(** Property X12. When [relfile] finds an identity for every dependency that
    the extractor lists, no [TypeError] is raised: every run from a mapping
    without [None] ends normally, leaves a mapping without [None], and the
    roots can be collected from it (lines 141 and 178 are safe). *)
Theorem total_relfile_never_raises fuel fiter st r :
  total_on_targets → none_free (allfiles st) →
  rounds fuel fiter st = Some r →
  is_ok r = true ∧ none_free (allfiles (payload r)) ∧
  is_Some (found_roots (allfiles (payload r))).
Proof.
  intros Htotal Hfree Hrun.
  destruct (rounds_total fuel fiter st r Htotal Hfree Hrun) as [Hok Hnone].
  split_and!; [done..|]. by apply found_roots_is_Some.
Qed.

End BuilderMore.

(** ** More facts about path names *)

(** Property X13. Only a name whose last component is exactly [__init__.py]
    is replaced (lines 122 and 137): any other file keeps its name, with or
    without a directory part. *)
Theorem collapse_keeps_other_files (name : string) :
  Path.no_sep name = true → name ≠ Path.init_py →
  Path.collapse name = name ∧
  ∀ dn, Path.collapse (Path.join dn name) = Path.join dn name.
Proof.
  intros Hname Hother. split.
  - apply PathFacts.collapse_other. unfold Path.basename.
    by rewrite PathFacts.rfind_split_no_sep.
  - intros dn. apply PathFacts.collapse_other.
    by rewrite PathFacts.basename_join.
Qed.

(** ** More facts about the summary *)

Lemma names_of_ext errtype errors1 errors2 :
  (∀ name, (errtype, name) ∈ errors1 ↔ (errtype, name) ∈ errors2) →
  names_of errtype errors1 = names_of errtype errors2.
Proof.
  intros Hsame. apply set_eq. intros name. by rewrite !elem_of_names_of.
Qed.

(** Property X14. The report depends only on which names occur in errors of
    the two kinds it shows: the order of the errors, their repetition and
    the errors of any other kind do not change it, nor do the symbol errors
    when the verbosity is below 2 (lines 158-169). *)
Theorem report_depends_on_names verbosity errors1 errors2 :
  (∀ name, (ERROR_IMPORT, name) ∈ errors1 ↔ (ERROR_IMPORT, name) ∈ errors2) →
  (2 ≤ verbosity →
   ∀ name, (ERROR_SYMBOL, name) ∈ errors1 ↔ (ERROR_SYMBOL, name) ∈ errors2) →
  error_report verbosity errors1 = error_report verbosity errors2.
Proof.
  intros Himport Hsymbol. unfold error_report, reports.
  case_bool_decide as Hv; cbn -[report_entry]; rewrite !report_entry_group.
  - by rewrite (names_of_ext _ _ _ Himport), (names_of_ext _ _ _ (Hsymbol Hv)).
  - by rewrite (names_of_ext _ _ _ Himport).
Qed.

Lemma group_lines_nil lvl heading names :
  group_lines lvl heading names = [] ↔ names = [].
Proof. by destruct names. Qed.

Lemma sorted_names_nil errtype errors :
  sorted (names_of errtype errors) = [] ↔ ∀ name, (errtype, name) ∉ errors.
Proof.
  split.
  - intros Hnil%sorted_nil_inv name Hin%elem_of_names_of.
    rewrite Hnil in Hin. by apply elem_of_empty in Hin.
  - intros Hnone. assert (names_of errtype errors = ∅) as ->; [|apply sorted_empty].
    apply set_eq. intros name. rewrite elem_of_names_of. split; [|set_solver].
    intros Hin. by destruct (Hnone name).
Qed.

(** Property X15. Nothing is logged exactly when there is no import error
    and, at verbosity 2 or more, no symbol error either: a group without
    name logs no heading (line 165). *)
Theorem report_is_empty_iff verbosity errors :
  error_report verbosity errors = [] ↔
  (∀ name, (ERROR_IMPORT, name) ∉ errors) ∧
  (2 ≤ verbosity → ∀ name, (ERROR_SYMBOL, name) ∉ errors).
Proof.
  unfold error_report, reports.
  case_bool_decide as Hv; cbn -[report_entry]; rewrite !report_entry_group.
  - rewrite app_nil_r, app_nil, !group_lines_nil, !sorted_names_nil. naive_solver.
  - rewrite app_nil_r, group_lines_nil, sorted_names_nil. naive_solver.
Qed.

(** ** Facts about the roots that are found *)

Lemma named_root_empty r : ¬ named_root ∅ r.
Proof. intros (k & files & Hk & _). by rewrite lookup_empty in Hk. Qed.

Lemma named_root_insert (d : gmap ident (gset target)) k files r :
  d !! k = None →
  named_root (<[k:=files]> d) r ↔
  (r = k.1 ∨ ∃ t, t ∈ files ∧ target_root t = Some r) ∨ named_root d r.
Proof.
  intros Hfresh. split.
  - intros (k' & files' & Hk' & Hr). destruct (decide (k = k')) as [->|Hne].
    + rewrite lookup_insert_eq in Hk'. injection Hk' as <-. by left.
    + rewrite lookup_insert_ne in Hk' by done. right. by exists k', files'.
  - intros [Hnew | (k' & files' & Hk' & Hr)].
    + exists k, files. by rewrite lookup_insert_eq.
    + exists k', files'. split; [|done]. rewrite lookup_insert_ne; [done|].
      intros ->. congruence.
Qed.

Lemma elem_of_roots_fold (d : gmap ident (gset target)) r :
  r ∈ map_fold
        (λ (key : ident) (files : gset target) (acc : gset string),
           {[key.1]} ∪ list_to_set (omap target_root (elements files)) ∪ acc)
        ∅ d
  ↔ named_root d r.
Proof.
  revert r. apply (map_fold_weak_ind (λ acc m, ∀ r, r ∈ acc ↔ named_root m r)).
  - intros r. split; [set_solver|]. intros Hr. by destruct (named_root_empty r).
  - intros k files m acc Hfresh IH r.
    rewrite named_root_insert by done. rewrite <- IH.
    rewrite !elem_of_union, elem_of_singleton, elem_of_list_to_set, list_elem_of_omap.
    setoid_rewrite elem_of_elements. naive_solver.
Qed.

(** Property X16. What is logged under "Found roots" (lines 175-182): the
    collection fails exactly when some edge set holds [None]; otherwise the
    list is sorted, without repetition, and holds exactly the roots of the
    keys and of the recorded pairs (the [None] of the sentinel is left out). *)
Theorem found_roots_spec (d : gmap ident (gset target)) :
  (found_roots d = None ↔ ∃ k files, d !! k = Some files ∧ None ∈ files) ∧
  (∀ roots, found_roots d = Some roots →
     Sorted String.le roots ∧ NoDup roots ∧ ∀ r, r ∈ roots ↔ named_root d r).
Proof.
  unfold found_roots. case_decide as Hd; split.
  - split; [done|]. intros (k & files & Hk & Hin). by destruct (Hd k files Hk).
  - intros roots [= <-]. split_and!; [apply Sorted_sorted|apply NoDup_sorted|].
    intros r. by rewrite elem_of_sorted, elem_of_roots_fold.
  - split; [intros _|done]. apply map_not_Forall in Hd; [|apply _].
    destruct Hd as (k & files & Hk & Hin). exists k, files. split; [done|].
    by apply dec_stable.
  - done.
Qed.

(** ** More facts about the command *)

Section GendepsMore.

Variable find_dependencies : string → nat → bool → list string * list (error_kind * string).
Variable relfile : string → list string → option ident.
Variable find_roots : list string → list string → list string.
Variable iter_pyfiles : list string → list string → bool → list string.
Variable realpath : string → string.
Variable path_exists : string → bool.

Local Abbreviation gendeps :=
  (gendeps find_dependencies relfile find_roots iter_pyfiles realpath path_exists).

(** Property X18. When [relfile] finds an identity for every dependency that
    the extractor lists, the command never ends in a [TypeError]. *)
Theorem command_never_raises fuel opts args :
  total_on_targets find_dependencies relfile opts →
  raised (gendeps fuel opts args) = None.
Proof.
  intros Htotal. unfold gendeps. destruct (print_roots opts); [done|].
  destruct (check_args _ _ _); [done|].
  destruct (internal opts && _); [done|].
  destruct (rounds _ _ _ _ _ _ _) as [r|] eqn:Hrun; [|done].
  destruct (rounds_total _ _ _ _ _ _ initial_state _ Htotal none_free_empty Hrun)
    as [Hok Hnone].
  destruct r as [st|st]; [|done]. simpl in *.
  apply found_roots_is_Some in Hnone as [roots ->]. done.
Qed.

(** Property X19. With [--internal], every root that a finished command logs
    under "Found roots" is one of the roots of the arguments. *)
Theorem internal_roots_are_input_roots fuel opts args o :
  internal opts = true → gendeps fuel opts args = Some o →
  ∀ r, r ∈ found o → r ∈ find_roots (default_args args) (ignores opts).
Proof.
  intros Hint. unfold gendeps. destruct (print_roots opts).
  { intros [= <-] r Hr. by apply elem_of_nil in Hr. }
  destruct (check_args _ _ _).
  { intros [= <-] r Hr. by apply elem_of_nil in Hr. }
  destruct (internal opts && _).
  { intros [= <-] r Hr. by apply elem_of_nil in Hr. }
  destruct (rounds _ _ _ _ _ _ _) as [res|] eqn:Hrun; [|done].
  pose proof (rounds_internal_inv _ _ _ _ _ _ initial_state _ Hint
                (internal_inv_empty _) Hrun) as Hinv.
  destruct res as [st|st].
  - simpl in Hinv. destruct (found_roots (allfiles st)) as [roots|] eqn:Hroots.
    + intros [= <-] r Hr. simpl in Hr. revert Hroots. unfold found_roots.
      case_decide; [|done]. intros [= <-].
      apply elem_of_sorted, elem_of_roots_fold in Hr
        as (k & files & Hk & Hwhich).
      destruct (Hinv k files Hk) as [Hkey Hall].
      apply (elem_of_list_to_set (C:=gset string)).
      destruct Hwhich as [->|(t & Ht & Hroot)]; [done|].
      destruct (Hall t Ht) as [->|(i & -> & Hi)]; [done|].
      simpl in Hroot. by injection Hroot as <-.
    + intros [= <-] r Hr. by apply elem_of_nil in Hr.
  - intros [= <-] r Hr. by apply elem_of_nil in Hr.
Qed.

(** Property X20. The command ends: when the files that [iter_pyfiles]
    yields and the dependencies of every file lie in a finite set [U], a
    bound above the size of [U] is never reached. *)
Theorem command_terminates (U : gset string) fuel opts args :
  closed find_dependencies opts U →
  (∀ f, f ∈ iter_pyfiles (default_args args) (ignores opts) false → f ∈ U) →
  size U < fuel →
  is_Some (gendeps fuel opts args).
Proof.
  intros Hclosed Hfiter Hfuel. unfold gendeps. destruct (print_roots opts); [done|].
  destruct (check_args _ _ _); [done|].
  destruct (internal opts && _); [done|].
  destruct (rounds_terminate find_dependencies relfile opts
              (list_to_set (find_roots (default_args args) (ignores opts)))
              U fuel (iter_pyfiles (default_args args) (ignores opts) false)
              initial_state Hclosed Hfiter) as (r & -> & _).
  - simpl. set_solver.
  - simpl. by rewrite difference_empty_L.
  - destruct r as [st|st]; [|done]. by destruct (found_roots (allfiles st)).
Qed.

End GendepsMore.

(** ** The claims on the small project *)

(** Decidable statements and equations between closed terms, by
    evaluation. *)
Ltac by_evaluation :=
  lazymatch goal with
  | |- ?x = ?y => vm_cast_no_check (eq_refl y)
  | |- _ => apply (bool_decide_unpack _); vm_cast_no_check I
  end.

Lemma closed_by_cases fd opts (U : gset string) :
  set_Forall (λ f, Forall (λ d, d ∈ U) (fd f (verbose opts) (do_pragmas opts)).1) U →
  closed fd opts U.
Proof.
  intros Hall f Hf d Hd. specialize (Hall f Hf).
  by apply (proj1 (Forall_forall _ _) Hall).
Qed.

Lemma Some_default {A} (x : option A) (d : A) :
  is_Some x → x = Some (default d x).
Proof. by intros [a ->]. Qed.

Lemma Ok_payload {A} (r : result A) : is_ok r = true → r = Ok (payload r).
Proof. by destruct r. Qed.

Lemma trace_inv_initial : trace_inv initial_state.
Proof. split; [constructor|]. intros f. simpl. set_solver. Qed.

(** Claim C1 fails as stated: in [--internal] mode with the internal root
    [/proj], the file [a.py] depends on [/ext/lib.py], whose root [/ext] is
    not internal; the round on [a.py] does not queue [/ext/lib.py], and the
    whole run in follow mode never processes it. *)
Lemma external_target_queued_counterexample :
  internal (Demo.opts true true) = true ∧
  "/ext/lib.py" ∈ (Demo.find_dependencies "/proj/a.py" 0 true).1 ∧
  Demo.relfile (Path.collapse "/ext/lib.py") [] = Some ("/ext", "lib.py") ∧
  ("/ext" ∉ ({["/proj"]} : gset string)) ∧
  is_ok Demo.internal_round = true ∧
  ("/ext/lib.py" ∉ (payload Demo.internal_round).2) ∧
  ("/ext/lib.py" ∉ processed_files
                     (payload (Demo.built (Demo.opts true true) ["/proj/a.py"]))).
Proof. split_and!; by_evaluation. Qed.

Lemma external_target_not_queued_witness :
  add_dependency Demo.relfile (Demo.opts true true) {["/proj"]}
    ("/proj", "a.py") "/ext/lib.py" (∅, ∅) = Ok (∅, ∅).
Proof.
  destruct (external_target_not_queued Demo.find_dependencies Demo.relfile
              (Demo.opts true true) {["/proj"]} eq_refl) as [Hskip _].
  apply (Hskip ("/proj", "a.py") "/ext/lib.py" (∅, ∅) ("/ext", "lib.py"));
    by_evaluation.
Defined.

(** Claim C2 on the code: [c.py] depends on [/tmp/gen.py], for which
    [relfile] returns [None]. Without [--internal] the round records [None]
    in the edge set of [c.py] and queues [/tmp/gen.py]; the command then
    ends in a [TypeError] when the roots are collected (line 178). With
    [--internal] it ends in the [TypeError] of line 141. *)
Lemma none_target_recorded :
  "/tmp/gen.py" ∈ (Demo.find_dependencies "/proj/c.py" 0 true).1 ∧
  Demo.relfile (Path.collapse "/tmp/gen.py") [] = None ∧
  is_ok Demo.gen_round = true ∧
  None ∈ default ∅ (allfiles (payload Demo.gen_round).1 !! ("/proj", "c.py")) ∧
  "/tmp/gen.py" ∈ (payload Demo.gen_round).2 ∧
  raised (Demo.run 5 (Demo.opts false true) ["/proj/c.py"]) = Some [] ∧
  raised (Demo.run 5 (Demo.opts true true) ["/proj/c.py"]) = Some [].
Proof. split_and!; by_evaluation. Qed.

Lemma in_scope_file_has_node_witness :
  ∃ files,
    allfiles (payload (Demo.built (Demo.opts true true) ["/proj/a.py"]))
      !! ("/proj", "pkg") = Some files ∧ sentinel ∈ files.
Proof.
  assert (rounds Demo.find_dependencies Demo.relfile (Demo.opts true true)
            {["/proj"]} 8 ["/proj/a.py"] initial_state
          = Some (Demo.built (Demo.opts true true) ["/proj/a.py"])) as Hrun
    by (apply Some_default; by_evaluation).
  destruct (in_scope_file_has_node _ _ _ _ _ _ _ Hrun) as [Hnode _].
  apply (Hnode "/proj/pkg/__init__.py" ("/proj", "pkg")).
  - by_evaluation.
  - split; [by_evaluation|]. intros _. by_evaluation.
Defined.

Lemma package_collapse_symmetry_witness :
  (Path.collapse (Path.join "/proj/pkg" Path.init_py) = "/proj/pkg" ∧
   Path.collapse "/proj/pkg" = "/proj/pkg") ∧
  (∃ files,
     allfiles (payload Demo.pkg_init).1 !! ("/proj", "pkg") = Some files ∧
     to_target (Demo.relfile (Path.collapse "/proj/pkg/mod.py")
                  (ignores (Demo.opts true true))) ∈ files) ∧
  (∃ files,
     allfiles (payload Demo.b_file).1 !! ("/proj", "b.py") = Some files ∧
     pair_target ("/proj", "pkg") ∈ files).
Proof.
  assert ("/proj/pkg" ≠ "") as Hne by discriminate.
  assert (Path.basename "/proj/pkg" ≠ Path.init_py) as Hbase by by_evaluation.
  assert (internal (Demo.opts true true) = true →
          ("/proj", "pkg").1 ∈ ({["/proj"]} : gset string)) as Hint
    by (intros _; by_evaluation).
  destruct (package_collapse_symmetry Demo.find_dependencies_pkg Demo.relfile
              (Demo.opts true true) {["/proj"]} "/proj/pkg" ("/proj", "pkg")
              Hne eq_refl Hbase eq_refl Hint) as (Hcollapse & Hsource & _ & Htarget).
  split; [exact Hcollapse|]. split.
  - assert (Path.join "/proj/pkg" Path.init_py ∉ processed_files initial_state)
      as Hout by by_evaluation.
    destruct (Hsource initial_state (∅ : gset string) Hout) as (_ & _ & Hedges).
    apply (Hedges (payload Demo.pkg_init).1 (payload Demo.pkg_init).2).
    + rewrite <- surjective_pairing. apply (Ok_payload Demo.pkg_init).
      by_evaluation.
    + by_evaluation.
    + intros _. exists ("/proj", "pkg/mod.py"). split; by_evaluation.
  - apply (Htarget "/proj/b.py" ("/proj", "b.py") initial_state (∅ : gset string)
             (payload Demo.b_file).1 (payload Demo.b_file).2
             "/proj/pkg/__init__.py").
    + by_evaluation.
    + split; [by_evaluation|]. intros _. by_evaluation.
    + rewrite <- surjective_pairing. apply (Ok_payload Demo.b_file).
      by_evaluation.
    + by_evaluation.
    + right. by_evaluation.
Defined.

Lemma extractor_called_once_witness :
  calls "/proj/a.py"
    (payload (Demo.built (Demo.opts false true) ["/proj/a.py"; "/proj/b.py"])) = 1 ∧
  allerrors (payload (Demo.built (Demo.opts false true) ["/proj/a.py"; "/proj/b.py"]))
  ≡ₚ errors_of Demo.find_dependencies (Demo.opts false true)
       (elements (processed_files
          (payload (Demo.built (Demo.opts false true)
                      ["/proj/a.py"; "/proj/b.py"])))).
Proof.
  assert (rounds Demo.find_dependencies Demo.relfile (Demo.opts false true)
            {["/proj"]} 8 ["/proj/a.py"; "/proj/b.py"] initial_state
          = Some (Demo.built (Demo.opts false true) ["/proj/a.py"; "/proj/b.py"]))
    as Hrun by (apply Some_default; by_evaluation).
  destruct (extractor_called_once Demo.find_dependencies Demo.relfile
              (Demo.opts false true) {["/proj"]} initial_state trace_inv_initial
              eq_refl)
    as (_ & _ & Hruns).
  destruct (Hruns _ _ _ Hrun) as (_ & _ & Herrors & Honce).
  split; [|exact Herrors].
  apply (Honce (payload (Demo.built (Demo.opts false true)
                           ["/proj/a.py"; "/proj/b.py"]))).
  - apply Ok_payload. by_evaluation.
  - by_evaluation.
Defined.

(** Claim C6 fails as stated: after the first round on [x.py] and [y.py],
    which import each other, both queued files are processed; in the words
    of the specification the loop stops there, while the code goes on with
    the worklist of both files and needs a second round to stop. *)
Lemma next_worklist_counterexample :
  is_ok Demo.cycle_round = true ∧
  spec_next_worklist (follow (Demo.opts false true)) (payload Demo.cycle_round).2
    (processed_files (payload Demo.cycle_round).1) = None ∧
  next_fiter (Demo.opts false true) (payload Demo.cycle_round).2
    = Some ["/proj/x.py"; "/proj/y.py"] ∧
  Demo.build 1 (Demo.opts false true) ["/proj/x.py"; "/proj/y.py"] initial_state
    = None ∧
  is_Some (Demo.build 2 (Demo.opts false true) ["/proj/x.py"; "/proj/y.py"]
             initial_state).
Proof. split_and!; by_evaluation. Qed.

Lemma next_round_worklist_witness :
  rounds Demo.find_dependencies Demo.relfile (Demo.opts false true) {["/proj"]}
    2 ["/proj/x.py"; "/proj/y.py"] initial_state
  = rounds Demo.find_dependencies Demo.relfile (Demo.opts false true) {["/proj"]}
      1 (sorted (payload Demo.cycle_round).2) (payload Demo.cycle_round).1.
Proof.
  assert (round Demo.find_dependencies Demo.relfile (Demo.opts false true)
            {["/proj"]} ["/proj/x.py"; "/proj/y.py"] initial_state
          = Ok ((payload Demo.cycle_round).1, (payload Demo.cycle_round).2))
    as Hround
    by (rewrite <- surjective_pairing; apply (Ok_payload Demo.cycle_round);
        by_evaluation).
  destruct (next_round_worklist Demo.find_dependencies Demo.relfile
              (Demo.opts false true) {["/proj"]} 1 _ _ _ _ Hround)
    as (_ & _ & Hnext).
  assert ((payload Demo.cycle_round).2 ≠ ∅) as Hne by by_evaluation.
  destruct (Hnext eq_refl Hne) as [Hgo _]. exact Hgo.
Defined.

Lemma worklist_loop_terminates_witness :
  ∃ r, rounds Demo.find_dependencies Demo.relfile (Demo.opts false true) {["/proj"]}
         12 ["/proj/a.py"; "/proj/x.py"] initial_state = Some r ∧
       processed_files initial_state ⊆ processed_files (payload r) ∧
       processed_files (payload r) ⊆ Demo.universe ∧
       NoDup (extracted (payload r)).
Proof.
  apply (worklist_loop_terminates Demo.find_dependencies Demo.relfile
           (Demo.opts false true) {["/proj"]} Demo.universe 12
           ["/proj/a.py"; "/proj/x.py"] initial_state).
  - apply closed_by_cases. by_evaluation.
  - apply Forall_forall. by_evaluation.
  - by_evaluation.
  - apply trace_inv_initial.
  - apply Nat.ltb_lt. by_evaluation.
Defined.

Lemma configuration_errors_abort_witness :
  (∃ bad, bad ∈ default_args ["/proj/a.py"; "/nonexistent.py"] ∧
     Demo.path_exists (Demo.realpath bad) = false ∧
     ∀ fuel,
       gendeps Demo.find_dependencies Demo.relfile Demo.find_roots Demo.iter_pyfiles
         Demo.realpath Demo.path_exists fuel (Demo.opts true true)
         ["/proj/a.py"; "/nonexistent.py"]
       = Some (ParserError
                 ("Filename '" +:+ Demo.realpath bad +:+ "' does not exist."))) ∧
  (∀ fuel,
     gendeps Demo.find_dependencies Demo.relfile Demo.find_roots Demo.iter_pyfiles
       Demo.realpath Demo.path_exists fuel (Demo.opts true true) ["/tmp"]
     = Some (ParserError no_roots_msg)).
Proof.
  split.
  - destruct (configuration_errors_abort Demo.find_dependencies Demo.relfile
                Demo.find_roots Demo.iter_pyfiles Demo.realpath Demo.path_exists
                (Demo.opts true true) ["/proj/a.py"; "/nonexistent.py"] eq_refl)
      as [Hmissing _].
    apply Hmissing. exists "/nonexistent.py". split; by_evaluation.
  - destruct (configuration_errors_abort Demo.find_dependencies Demo.relfile
                Demo.find_roots Demo.iter_pyfiles Demo.realpath Demo.path_exists
                (Demo.opts true true) ["/tmp"] eq_refl)
      as (_ & Hroots & _).
    apply Hroots.
    + apply Forall_forall. by_evaluation.
    + reflexivity.
    + by_evaluation.
Defined.

Lemma every_key_holds_sentinel_witness :
  sentinel_inv
    (allfiles (payload (Demo.built (Demo.opts false true) ["/proj/a.py"]))).
Proof.
  assert (rounds Demo.find_dependencies Demo.relfile (Demo.opts false true)
            {["/proj"]} 8 ["/proj/a.py"] initial_state
          = Some (Demo.built (Demo.opts false true) ["/proj/a.py"])) as Hrun
    by (apply Some_default; by_evaluation).
  destruct (every_key_holds_sentinel Demo.find_dependencies Demo.relfile
              (Demo.opts false true) {["/proj"]} initial_state sentinel_inv_empty)
    as (_ & _ & Hruns).
  apply (Hruns _ _ _ Hrun).
Defined.

(** ** More properties on the small project *)

Lemma dependency_recorded_once_witness :
  add_dependency Demo.relfile (Demo.opts false true) {["/proj"]} ("/proj", "a.py")
    "/proj/b.py" (payload Demo.one_dep) = Ok (payload Demo.one_dep).
Proof.
  assert (add_dependency Demo.relfile (Demo.opts false true) {["/proj"]}
            ("/proj", "a.py") "/proj/b.py" (∅, ∅) = Ok (payload Demo.one_dep))
    as Hone by (apply (Ok_payload Demo.one_dep); by_evaluation).
  destruct (dependency_recorded_once Demo.find_dependencies _ _ _ _ _ _ _ Hone)
    as [Htwice _].
  exact Htwice.
Defined.

Lemma worklist_processed_once_witness :
  process_files Demo.find_dependencies Demo.relfile (Demo.opts false true)
    {["/proj"]} ["/proj/x.py"; "/proj/y.py"] (payload Demo.cycle_round)
  = Ok (payload Demo.cycle_round).
Proof.
  assert (process_files Demo.find_dependencies Demo.relfile (Demo.opts false true)
            {["/proj"]} ["/proj/x.py"; "/proj/y.py"] (initial_state, ∅)
          = Ok (payload Demo.cycle_round))
    as Hrun by (apply (Ok_payload Demo.cycle_round); by_evaluation).
  destruct (worklist_processed_once _ _ _ _ _ _ _ Hrun) as [Hagain _].
  exact Hagain.
Defined.

Lemma out_of_scope_file_only_extracted_witness :
  process_file Demo.find_dependencies Demo.relfile (Demo.opts true true) {["/proj"]}
    "/ext/lib.py" (initial_state, ∅)
  = Ok (State (allfiles initial_state)
          (allerrors initial_state ++
           (Demo.find_dependencies "/ext/lib.py" (verbose (Demo.opts true true))
              (do_pragmas (Demo.opts true true))).2)
          ({["/ext/lib.py"]} ∪ processed_files initial_state)
          (extracted initial_state ++ ["/ext/lib.py"]), ∅).
Proof.
  apply out_of_scope_file_only_extracted.
  - by_evaluation.
  - intros id [Hrel Hin]. injection Hrel as <-.
    specialize (Hin eq_refl). revert Hin. by_evaluation.
Defined.

Lemma run_is_append_only_witness :
  extends initial_state (payload (Demo.built (Demo.opts false true) ["/proj/a.py"])).
Proof.
  apply (run_is_append_only Demo.find_dependencies Demo.relfile (Demo.opts false true)
           {["/proj"]} 8 ["/proj/a.py"]).
  apply Some_default. by_evaluation.
Defined.

Lemma errors_are_collected_witness :
  allerrors (payload (Demo.built (Demo.opts false true) ["/proj/a.py"]))
  = errors_of Demo.find_dependencies (Demo.opts false true)
      (extracted (payload (Demo.built (Demo.opts false true) ["/proj/a.py"]))).
Proof.
  apply (errors_are_collected Demo.find_dependencies Demo.relfile
           (Demo.opts false true) {["/proj"]} 8 ["/proj/a.py"]).
  apply Some_default. by_evaluation.
Defined.

Lemma single_round_without_follow_witness :
  ∃ r, rounds Demo.find_dependencies Demo.relfile (Demo.opts false false) {["/proj"]}
         1 ["/proj/a.py"] initial_state = Some r ∧
       processed_files (payload r)
         ⊆ processed_files initial_state ∪ list_to_set ["/proj/a.py"] ∧
       (is_ok r = true →
        processed_files (payload r)
          = processed_files initial_state ∪ list_to_set ["/proj/a.py"]).
Proof.
  apply (single_round_without_follow Demo.find_dependencies Demo.relfile
           (Demo.opts false false) {["/proj"]} 0 ["/proj/a.py"] initial_state
           eq_refl).
Defined.

Lemma internal_mode_records_internal_only_witness :
  internal_inv {["/proj"]}
    (allfiles (payload (Demo.built (Demo.opts true true) ["/proj/a.py"]))).
Proof.
  apply (internal_mode_records_internal_only Demo.find_dependencies Demo.relfile
           (Demo.opts true true) {["/proj"]} 8 ["/proj/a.py"] initial_state).
  - reflexivity.
  - apply internal_inv_empty.
  - apply Some_default. by_evaluation.
Defined.

Lemma edges_come_from_dependencies_witness :
  sound_inv Demo.find_dependencies Demo.relfile (Demo.opts false true) {["/proj"]}
    (payload (Demo.built (Demo.opts false true) ["/proj/a.py"])).
Proof.
  apply (edges_come_from_dependencies Demo.find_dependencies Demo.relfile
           (Demo.opts false true) {["/proj"]} 8 ["/proj/a.py"]).
  apply Some_default. by_evaluation.
Defined.

Lemma built_is_ok o fiter :
  is_Some (Demo.build 8 o fiter initial_state) → is_ok (Demo.built o fiter) = true →
  rounds Demo.find_dependencies Demo.relfile o {["/proj"]} 8 fiter initial_state
  = Some (Ok (payload (Demo.built o fiter))).
Proof.
  intros Hsome Hok. rewrite <- (Ok_payload _ Hok). by apply Some_default.
Qed.

Lemma followed_dependencies_are_recorded_witness :
  complete_inv Demo.find_dependencies Demo.relfile (Demo.opts false true) {["/proj"]}
    (payload (Demo.built (Demo.opts false true) ["/proj/a.py"])).
Proof.
  apply (followed_dependencies_are_recorded Demo.find_dependencies Demo.relfile
           (Demo.opts false true) {["/proj"]} 8 ["/proj/a.py"]).
  apply built_is_ok; by_evaluation.
Defined.

Lemma follow_mode_reaches_closure_witness :
  "/proj/b.py"
  ∈ processed_files (payload (Demo.built (Demo.opts true true) ["/proj/a.py"])).
Proof.
  apply (follow_mode_reaches_closure Demo.find_dependencies Demo.relfile
           (Demo.opts true true) {["/proj"]} 8 ["/proj/a.py"]).
  - reflexivity.
  - apply built_is_ok; by_evaluation.
  - exists "/proj/a.py", ("/proj", "a.py"). split_and!; [by_evaluation| |by_evaluation].
    split; [by_evaluation|]. intros _. by_evaluation.
  - intros _. exists ("/proj", "b.py"). split; by_evaluation.
Defined.

Lemma processed_files_are_reached_witness :
  "/proj/b.py" ∈ ["/proj/a.py"] ∨
  dependency_of Demo.find_dependencies Demo.relfile (Demo.opts false true) {["/proj"]}
    (processed_files (payload (Demo.built (Demo.opts false true) ["/proj/a.py"])))
    "/proj/b.py".
Proof.
  apply (processed_files_are_reached Demo.find_dependencies Demo.relfile
           (Demo.opts false true) {["/proj"]} 8 ["/proj/a.py"]).
  - apply Some_default. by_evaluation.
  - by_evaluation.
Defined.

Lemma total_relfile_never_raises_witness :
  is_ok Demo.built_all = true ∧
  none_free (allfiles (payload Demo.built_all)) ∧
  is_Some (found_roots (allfiles (payload Demo.built_all))).
Proof.
  apply (total_relfile_never_raises Demo.find_dependencies Demo.relfile_all
           (Demo.opts false true) {["/"]} 8 ["/proj/c.py"] initial_state).
  - intros fn d _. by eexists.
  - apply none_free_empty.
  - apply Some_default. by_evaluation.
Defined.

Lemma collapse_keeps_other_files_witness : Path.collapse "mod.py" = "mod.py".
Proof.
  assert ("mod.py" ≠ Path.init_py) as Hother by by_evaluation.
  destruct (collapse_keeps_other_files "mod.py" eq_refl Hother) as [Hbare _].
  exact Hbare.
Defined.

Lemma report_depends_on_names_witness :
  error_report 1
    [(ERROR_IMPORT, "b"); (ERROR_OTHER "x", "c"); (ERROR_IMPORT, "a");
     (ERROR_SYMBOL, "s"); (ERROR_IMPORT, "b")]
  = error_report 1 [(ERROR_IMPORT, "a"); (ERROR_IMPORT, "b")].
Proof.
  apply report_depends_on_names.
  - intros name. rewrite !elem_of_cons, !elem_of_nil. naive_solver.
  - intros Hv. lia.
Defined.

Lemma command_never_raises_witness :
  raised (gendeps Demo.find_dependencies Demo.relfile_all Demo.find_roots
            Demo.iter_pyfiles Demo.realpath Demo.path_exists 8
            (Demo.opts false true) ["/proj/c.py"]) = None.
Proof.
  apply command_never_raises. intros fn d _. by eexists.
Defined.

Lemma internal_roots_are_input_roots_witness :
  "/proj" ∈ Demo.find_roots (default_args ["/proj/a.py"])
              (ignores (Demo.opts true true)).
Proof.
  apply (internal_roots_are_input_roots Demo.find_dependencies Demo.relfile
           Demo.find_roots Demo.iter_pyfiles Demo.realpath Demo.path_exists 8
           (Demo.opts true true) ["/proj/a.py"] Demo.ran).
  - reflexivity.
  - apply Some_default. by_evaluation.
  - by_evaluation.
Defined.

Lemma command_terminates_witness :
  is_Some (gendeps Demo.find_dependencies Demo.relfile Demo.find_roots
             Demo.iter_pyfiles Demo.realpath Demo.path_exists 12
             (Demo.opts false true) ["/proj/a.py"; "/proj/x.py"]).
Proof.
  apply (command_terminates Demo.find_dependencies Demo.relfile Demo.find_roots
           Demo.iter_pyfiles Demo.realpath Demo.path_exists Demo.universe).
  - apply closed_by_cases. by_evaluation.
  - apply Forall_forall. by_evaluation.
  - apply Nat.ltb_lt. by_evaluation.
Defined.
